(** * lex-js: the Tokenizer class of [src/Tokenizer.js], embedded in Rocq.

    The development has three layers.

    - [JS]: the fragment of the JavaScript runtime the class relies on
      (strings, [slice], [split], [repeat], number printing, completions).
    - the class itself: one Rocq definition per method, written in a small
      state-and-exception monad over the object's fields.  The regular
      expression engine is an interface ([RegExpEngine]); the class is
      generic in it.
    - [Rx]: a small backtracking engine for a subset of the RegExp syntax,
      used to run the class on concrete specs. *)

From Stdlib Require Import Ascii String DecimalString.
From Stdlib Require Import List ZArith Lia Bool.
Import ListNotations.
Local Open Scope Z_scope.

(* ================================================================= *)
(** ** The JavaScript runtime fragment *)

Module JS.

(** A JavaScript string, as its sequence of code units. *)
Definition jsstring := list ascii.

Definition str (s : string) : jsstring := list_ascii_of_string s.

Definition newline : ascii := "010"%char.
Definition space : ascii := " "%char.

(** [s.length] *)
Definition len (s : jsstring) : Z := Z.of_nat (length s).

(** [s.slice(start)]: a negative [start] counts from the end. *)
Definition slice (s : jsstring) (start : Z) : jsstring :=
  let from := if start <? 0 then Z.max (len s + start) 0
              else Z.min start (len s) in
  skipn (Z.to_nat from) s.

(** [s[0]]: a one-unit string, or [undefined] ([None]) on the empty string. *)
Definition string0 (s : jsstring) : option jsstring :=
  match s with
  | [] => None
  | c :: _ => Some [c]
  end.

(** [s.split('\n')]: never empty; [acc] is the piece being read. *)
Fixpoint split_from (acc : jsstring) (s : jsstring) : list jsstring :=
  match s with
  | [] => [rev acc]
  | c :: rest =>
      if Ascii.eqb c newline then rev acc :: split_from [] rest
      else split_from (c :: acc) rest
  end.

Definition split_newline (s : jsstring) : list jsstring := split_from [] s.

(** [a[i]] for a number [i]: [undefined] outside the array. *)
Definition item {A} (a : list A) (i : Z) : option A :=
  if i <? 0 then None else nth_error a (Z.to_nat i).

(** The successive [nlMatch.index] of [/\n/g.exec(s)], from offset [i]. *)
Fixpoint nl_indices_from (i : Z) (s : jsstring) : list Z :=
  match s with
  | [] => []
  | c :: rest =>
      if Ascii.eqb c newline then i :: nl_indices_from (i + 1) rest
      else nl_indices_from (i + 1) rest
  end.

Definition nl_indices (s : jsstring) : list Z := nl_indices_from 0 s.

(** Number to string, for integers: [`${n}`]. *)
Definition number_to_string (n : Z) : jsstring :=
  str (NilZero.string_of_int (Z.to_int n)).

(** [`${v}`] for a value that is a string or [undefined]. *)
Definition to_string (v : option jsstring) : jsstring :=
  match v with
  | Some s => s
  | None => str "undefined"
  end.

(** Values a rule handler can return: a label, [null], [undefined], or an
    array (the pair [[value, type]]). *)
#[warnings="-register-all"]
Inductive value :=
| Undefined
| Null
| String (s : jsstring)
| Array (items : list value).

(** [v == null] *)
Definition is_nullish (v : value) : bool :=
  match v with
  | Undefined | Null => true
  | _ => false
  end.

(** [a[i]] on an array value. *)
Definition element (items : list value) (i : nat) : value :=
  nth i items Undefined.

(** Errors the class can raise. *)
Inductive exn :=
| SyntaxError (message : jsstring)
| TypeError
| RangeError.

Inductive completion (A : Type) :=
| Normal (a : A)
| Throw (e : exn).
Arguments Normal {A} a.
Arguments Throw {A} e.

(** [' '.repeat(n)]: a negative count is a RangeError. *)
Definition repeat_space (n : Z) : completion jsstring :=
  if n <? 0 then Throw RangeError
  else Normal (repeat space (Z.to_nat n)).

(** A RegExp object: its [source] and [flags]. *)
Record RegExp := { source : jsstring; flags : jsstring }.

(** [new RegExp(pattern)]: no flags argument, so no flags. *)
Definition new_RegExp (pattern : jsstring) : RegExp :=
  {| source := pattern; flags := [] |}.

(** The array [string.match(regexp)] returns, cut down to what the class
    reads: element 0, and the index it was found at. *)
Record MatchResult := { match_index : nat; match_0 : jsstring }.

(** [string.match(regexp)], for a regexp without the sticky flag. *)
Class RegExpEngine := { string_match : jsstring -> RegExp -> option MatchResult }.

End JS.
Import JS.

(* ================================================================= *)
(** ** The Tokenizer class *)

(** A lexical rule [[regexp, handle]]. *)
Definition Rule : Type := RegExp * (jsstring -> value).

(** The two shapes [_processSpec] accepts: the rules, or an object with a
    [rules] property. *)
Inductive RawSpec :=
| SpecRules (entries : list Rule)
| SpecObject (rules : list Rule).

(** What [_toToken] builds. *)
Record Token := {
  type : value;
  value_ : value;
  startOffset : Z;
  endOffset : Z;
  startLine : Z;
  endLine : Z;
  startColumn : Z;
  endColumn : Z
}.

(** The generator object of [_genTokens]: suspended (at its start or at the
    [yield], which both resume at the loop test), or completed. *)
Inductive Generator := GenSuspended | GenCompleted.

(** The fields of an instance. [_tokens] and [_string] can hold [null]. *)
Record Tokenizer := {
  _spec : list Rule;
  _tokens : option (list Token);
  _string : option jsstring;
  _cursor : Z;
  _currentLine : Z;
  _currentColumn : Z;
  _currentLineBeginOffset : Z;
  _tokenStartOffset : Z;
  _tokenEndOffset : Z;
  _tokenStartLine : Z;
  _tokenEndLine : Z;
  _tokenStartColumn : Z;
  _tokenEndColumn : Z;
  _gen : Generator
}.

(** Assignment to one field: [Set_.cursor v t] is [t] after [this._cursor = v]. *)
Module Set_.

Definition spec v t :=
  {| _spec := v; _tokens := _tokens t;
     _string := _string t; _cursor := _cursor t;
     _currentLine := _currentLine t; _currentColumn := _currentColumn t;
     _currentLineBeginOffset := _currentLineBeginOffset t; _tokenStartOffset := _tokenStartOffset t;
     _tokenEndOffset := _tokenEndOffset t; _tokenStartLine := _tokenStartLine t;
     _tokenEndLine := _tokenEndLine t; _tokenStartColumn := _tokenStartColumn t;
     _tokenEndColumn := _tokenEndColumn t; _gen := _gen t |}.

Definition tokens v t :=
  {| _spec := _spec t; _tokens := v;
     _string := _string t; _cursor := _cursor t;
     _currentLine := _currentLine t; _currentColumn := _currentColumn t;
     _currentLineBeginOffset := _currentLineBeginOffset t; _tokenStartOffset := _tokenStartOffset t;
     _tokenEndOffset := _tokenEndOffset t; _tokenStartLine := _tokenStartLine t;
     _tokenEndLine := _tokenEndLine t; _tokenStartColumn := _tokenStartColumn t;
     _tokenEndColumn := _tokenEndColumn t; _gen := _gen t |}.

Definition string v t :=
  {| _spec := _spec t; _tokens := _tokens t;
     _string := v; _cursor := _cursor t;
     _currentLine := _currentLine t; _currentColumn := _currentColumn t;
     _currentLineBeginOffset := _currentLineBeginOffset t; _tokenStartOffset := _tokenStartOffset t;
     _tokenEndOffset := _tokenEndOffset t; _tokenStartLine := _tokenStartLine t;
     _tokenEndLine := _tokenEndLine t; _tokenStartColumn := _tokenStartColumn t;
     _tokenEndColumn := _tokenEndColumn t; _gen := _gen t |}.

Definition cursor v t :=
  {| _spec := _spec t; _tokens := _tokens t;
     _string := _string t; _cursor := v;
     _currentLine := _currentLine t; _currentColumn := _currentColumn t;
     _currentLineBeginOffset := _currentLineBeginOffset t; _tokenStartOffset := _tokenStartOffset t;
     _tokenEndOffset := _tokenEndOffset t; _tokenStartLine := _tokenStartLine t;
     _tokenEndLine := _tokenEndLine t; _tokenStartColumn := _tokenStartColumn t;
     _tokenEndColumn := _tokenEndColumn t; _gen := _gen t |}.

Definition currentLine v t :=
  {| _spec := _spec t; _tokens := _tokens t;
     _string := _string t; _cursor := _cursor t;
     _currentLine := v; _currentColumn := _currentColumn t;
     _currentLineBeginOffset := _currentLineBeginOffset t; _tokenStartOffset := _tokenStartOffset t;
     _tokenEndOffset := _tokenEndOffset t; _tokenStartLine := _tokenStartLine t;
     _tokenEndLine := _tokenEndLine t; _tokenStartColumn := _tokenStartColumn t;
     _tokenEndColumn := _tokenEndColumn t; _gen := _gen t |}.

Definition currentColumn v t :=
  {| _spec := _spec t; _tokens := _tokens t;
     _string := _string t; _cursor := _cursor t;
     _currentLine := _currentLine t; _currentColumn := v;
     _currentLineBeginOffset := _currentLineBeginOffset t; _tokenStartOffset := _tokenStartOffset t;
     _tokenEndOffset := _tokenEndOffset t; _tokenStartLine := _tokenStartLine t;
     _tokenEndLine := _tokenEndLine t; _tokenStartColumn := _tokenStartColumn t;
     _tokenEndColumn := _tokenEndColumn t; _gen := _gen t |}.

Definition currentLineBeginOffset v t :=
  {| _spec := _spec t; _tokens := _tokens t;
     _string := _string t; _cursor := _cursor t;
     _currentLine := _currentLine t; _currentColumn := _currentColumn t;
     _currentLineBeginOffset := v; _tokenStartOffset := _tokenStartOffset t;
     _tokenEndOffset := _tokenEndOffset t; _tokenStartLine := _tokenStartLine t;
     _tokenEndLine := _tokenEndLine t; _tokenStartColumn := _tokenStartColumn t;
     _tokenEndColumn := _tokenEndColumn t; _gen := _gen t |}.

Definition tokenStartOffset v t :=
  {| _spec := _spec t; _tokens := _tokens t;
     _string := _string t; _cursor := _cursor t;
     _currentLine := _currentLine t; _currentColumn := _currentColumn t;
     _currentLineBeginOffset := _currentLineBeginOffset t; _tokenStartOffset := v;
     _tokenEndOffset := _tokenEndOffset t; _tokenStartLine := _tokenStartLine t;
     _tokenEndLine := _tokenEndLine t; _tokenStartColumn := _tokenStartColumn t;
     _tokenEndColumn := _tokenEndColumn t; _gen := _gen t |}.

Definition tokenEndOffset v t :=
  {| _spec := _spec t; _tokens := _tokens t;
     _string := _string t; _cursor := _cursor t;
     _currentLine := _currentLine t; _currentColumn := _currentColumn t;
     _currentLineBeginOffset := _currentLineBeginOffset t; _tokenStartOffset := _tokenStartOffset t;
     _tokenEndOffset := v; _tokenStartLine := _tokenStartLine t;
     _tokenEndLine := _tokenEndLine t; _tokenStartColumn := _tokenStartColumn t;
     _tokenEndColumn := _tokenEndColumn t; _gen := _gen t |}.

Definition tokenStartLine v t :=
  {| _spec := _spec t; _tokens := _tokens t;
     _string := _string t; _cursor := _cursor t;
     _currentLine := _currentLine t; _currentColumn := _currentColumn t;
     _currentLineBeginOffset := _currentLineBeginOffset t; _tokenStartOffset := _tokenStartOffset t;
     _tokenEndOffset := _tokenEndOffset t; _tokenStartLine := v;
     _tokenEndLine := _tokenEndLine t; _tokenStartColumn := _tokenStartColumn t;
     _tokenEndColumn := _tokenEndColumn t; _gen := _gen t |}.

Definition tokenEndLine v t :=
  {| _spec := _spec t; _tokens := _tokens t;
     _string := _string t; _cursor := _cursor t;
     _currentLine := _currentLine t; _currentColumn := _currentColumn t;
     _currentLineBeginOffset := _currentLineBeginOffset t; _tokenStartOffset := _tokenStartOffset t;
     _tokenEndOffset := _tokenEndOffset t; _tokenStartLine := _tokenStartLine t;
     _tokenEndLine := v; _tokenStartColumn := _tokenStartColumn t;
     _tokenEndColumn := _tokenEndColumn t; _gen := _gen t |}.

Definition tokenStartColumn v t :=
  {| _spec := _spec t; _tokens := _tokens t;
     _string := _string t; _cursor := _cursor t;
     _currentLine := _currentLine t; _currentColumn := _currentColumn t;
     _currentLineBeginOffset := _currentLineBeginOffset t; _tokenStartOffset := _tokenStartOffset t;
     _tokenEndOffset := _tokenEndOffset t; _tokenStartLine := _tokenStartLine t;
     _tokenEndLine := _tokenEndLine t; _tokenStartColumn := v;
     _tokenEndColumn := _tokenEndColumn t; _gen := _gen t |}.

Definition tokenEndColumn v t :=
  {| _spec := _spec t; _tokens := _tokens t;
     _string := _string t; _cursor := _cursor t;
     _currentLine := _currentLine t; _currentColumn := _currentColumn t;
     _currentLineBeginOffset := _currentLineBeginOffset t; _tokenStartOffset := _tokenStartOffset t;
     _tokenEndOffset := _tokenEndOffset t; _tokenStartLine := _tokenStartLine t;
     _tokenEndLine := _tokenEndLine t; _tokenStartColumn := _tokenStartColumn t;
     _tokenEndColumn := v; _gen := _gen t |}.

Definition gen v t :=
  {| _spec := _spec t; _tokens := _tokens t;
     _string := _string t; _cursor := _cursor t;
     _currentLine := _currentLine t; _currentColumn := _currentColumn t;
     _currentLineBeginOffset := _currentLineBeginOffset t; _tokenStartOffset := _tokenStartOffset t;
     _tokenEndOffset := _tokenEndOffset t; _tokenStartLine := _tokenStartLine t;
     _tokenEndLine := _tokenEndLine t; _tokenStartColumn := _tokenStartColumn t;
     _tokenEndColumn := _tokenEndColumn t; _gen := v |}.

End Set_.

(** *** The method monad: the object's state is threaded through, and it
    survives an exception (what was assigned before a [throw] stays
    assigned). *)

Definition M (A : Type) : Type := Tokenizer -> completion A * Tokenizer.

Definition ret {A} (a : A) : M A := fun t => (Normal a, t).

Definition bind {A B} (m : M A) (f : A -> M B) : M B :=
  fun t =>
    match m t with
    | (Normal a, t') => f a t'
    | (Throw e, t') => (Throw e, t')
    end.

Definition throw {A} (e : exn) : M A := fun t => (Throw e, t).

(** Read a field of [this]. *)
Definition this {A} (field : Tokenizer -> A) : M A := fun t => (Normal (field t), t).

(** Assign a field of [this]. *)
Definition assign (setter : Tokenizer -> Tokenizer) : M unit :=
  fun t => (Normal tt, setter t).

(** A completion of the runtime, taken into the method. *)
Definition lift {A} (c : completion A) : M A := fun t => (c, t).

Declare Scope method_scope.
Delimit Scope method_scope with method.
Notation "x <- m ;; k" := (bind m (fun x => k))
  (at level 61, m at next level, right associativity) : method_scope.
Notation "m ;; k" := (bind m (fun _ => k))
  (at level 61, right associativity) : method_scope.
Local Open Scope method_scope.

(** *** [_processSpec] *)

(** One turn of the loop over the entries:
    [if (entry[0].source[0] !== '^') entry[0] = new RegExp(`^${entry[0].source}`)]. *)
Definition anchor_entry (entry : Rule) : Rule :=
  let regexp := fst entry in
  let starts_with_caret :=
    match source regexp with
    | c :: _ => Ascii.eqb c "^"
    | [] => false
    end in
  if starts_with_caret then entry
  else (new_RegExp ("^"%char :: source regexp), snd entry).

Definition _processSpec (spec : RawSpec) : list Rule :=
  let spec :=
    match spec with
    | SpecObject rules => rules       (* spec.rules is an array: truthy *)
    | SpecRules entries => entries    (* an array has no [rules] *)
    end in
  map anchor_entry spec.

Section TokenizerClass.

Context {engine : RegExpEngine}.

(** *** [init], [reset] *)

Definition init (string : option jsstring) : M unit :=
  assign (Set_.string string) ;;
  assign (Set_.cursor 0) ;;
  tokens <- this _tokens ;;
  match tokens with
  | None => throw TypeError                     (* null.length = 0 *)
  | Some _ => assign (Set_.tokens (Some []))    (* this._tokens.length = 0 *)
  end ;;
  assign (Set_.currentLine 1) ;;
  assign (Set_.currentColumn 0) ;;
  assign (Set_.currentLineBeginOffset 0) ;;
  assign (Set_.tokenStartOffset 0) ;;
  assign (Set_.tokenEndOffset 0) ;;
  assign (Set_.tokenStartLine 1) ;;
  assign (Set_.tokenEndLine 1) ;;
  assign (Set_.tokenStartColumn 0) ;;
  assign (Set_.tokenEndColumn 0) ;;
  assign (Set_.gen GenSuspended).               (* this._gen = this._genTokens() *)

Definition initString (string : option jsstring) : M unit := init string.

Definition reset : M unit :=
  string <- this _string ;;
  init string.

(** *** The constructor and [fromSpec].  Before the constructor runs the
    object has no fields; the numeric ones are written 0 here, and [init]
    assigns every one of them before anything reads it. *)
Definition new_Tokenizer (spec : RawSpec) (string : option jsstring)
  : completion unit * Tokenizer :=
  init string
    {| _spec := _processSpec spec;
       _tokens := Some [];
       _string := None;
       _cursor := 0;
       _currentLine := 0;
       _currentColumn := 0;
       _currentLineBeginOffset := 0;
       _tokenStartOffset := 0;
       _tokenEndOffset := 0;
       _tokenStartLine := 0;
       _tokenEndLine := 0;
       _tokenStartColumn := 0;
       _tokenEndColumn := 0;
       _gen := GenCompleted |}.

Definition fromSpec (spec : RawSpec) : completion unit * Tokenizer :=
  new_Tokenizer spec None.

(** *** Accessors *)

Definition hasMoreTokens : M bool :=
  cursor <- this _cursor ;;
  string <- this _string ;;
  match string with
  | None => throw TypeError
  | Some s => ret (cursor <? len s)
  end.

Definition isEOF : M bool :=
  cursor <- this _cursor ;;
  string <- this _string ;;
  match string with
  | None => throw TypeError
  | Some s => ret (cursor =? len s)
  end.

Definition getSpec : M (list Rule) := this _spec.
Definition getCursor : M Z := this _cursor.
Definition getCurrentLine : M Z := this _currentLine.
Definition getCurrentColumn : M Z := this _currentColumn.

(** *** [throwUnexpectedToken] *)

Definition dquote : ascii := "034"%char.

(** The template literal of the [SyntaxError]. *)
Definition unexpected_message (lineData : jsstring) (symbol : option jsstring)
    (line column : Z) : jsstring :=
  lineData ++ str "Unexpected token: " ++ [dquote] ++ to_string symbol
    ++ [dquote] ++ str " " ++ str "at " ++ number_to_string line
    ++ str ":" ++ number_to_string column ++ [newline].

Definition throwUnexpectedToken {A} (symbol : option jsstring) (line column : Z)
  : M A :=
  string <- this _string ;;
  match string with
  | None => throw TypeError
  | Some s =>
      let lineSource := item (split_newline s) (line - 1) in
      lineData <-
        match lineSource with
        | Some (c :: l) =>                       (* if (lineSource) *)
            pad <- lift (repeat_space column) ;;
            ret ([newline; newline] ++ (c :: l) ++ [newline] ++ pad
                   ++ str "^" ++ [newline])
        | Some [] | None => ret []
        end ;;
      throw (SyntaxError (unexpected_message lineData symbol line column))
  end.

(** *** [_captureLocation] *)

(** One turn of [while ((nlMatch = nlRe.exec(matched)) !== null)]. *)
Definition newline_found (index : Z) : M unit :=
  line <- this _currentLine ;;
  assign (Set_.currentLine (line + 1)) ;;
  start <- this _tokenStartOffset ;;
  assign (Set_.currentLineBeginOffset (start + index + 1)).

Fixpoint for_newlines (indices : list Z) : M unit :=
  match indices with
  | [] => ret tt
  | index :: rest => newline_found index ;; for_newlines rest
  end.

Definition _captureLocation (matched : jsstring) : M unit :=
  cursor <- this _cursor ;;
  assign (Set_.tokenStartOffset cursor) ;;
  line <- this _currentLine ;;
  assign (Set_.tokenStartLine line) ;;
  start <- this _tokenStartOffset ;;
  lineBegin <- this _currentLineBeginOffset ;;
  assign (Set_.tokenStartColumn (start - lineBegin)) ;;
  for_newlines (nl_indices matched) ;;
  cursor <- this _cursor ;;
  assign (Set_.tokenEndOffset (cursor + len matched)) ;;
  line <- this _currentLine ;;
  assign (Set_.tokenEndLine line) ;;
  tokenEnd <- this _tokenEndOffset ;;
  lineBegin <- this _currentLineBeginOffset ;;
  assign (Set_.currentColumn (tokenEnd - lineBegin)) ;;
  assign (Set_.tokenEndColumn (tokenEnd - lineBegin)).

(** *** [_toToken] *)

(** The default parameter [tokenValue = '']: it replaces [undefined]. *)
Definition or_empty_string (v : value) : value :=
  match v with
  | Undefined => String []
  | _ => v
  end.

Definition _toToken (tokenType tokenValue : value) : M Token :=
  fun t =>
    (Normal {| type := tokenType;
               value_ := or_empty_string tokenValue;
               startOffset := _tokenStartOffset t;
               endOffset := _tokenEndOffset t;
               startLine := _tokenStartLine t;
               endLine := _tokenEndLine t;
               startColumn := _tokenStartColumn t;
               endColumn := _tokenEndColumn t |}, t).

(** *** [_match] *)
Definition _match (string : jsstring) (regexp : RegExp) : M (option jsstring) :=
  match string_match string regexp with
  | Some matched =>
      _captureLocation (match_0 matched) ;;
      cursor <- this _cursor ;;
      assign (Set_.cursor (cursor + len (match_0 matched))) ;;
      ret (Some (match_0 matched))
  | None => ret None
  end.

(** *** [_genTokens] *)

(** The [for (let [regexp, handle] of this._spec)] loop; [tokenType] and
    [tokenValue] are the two variables it assigns. *)
Fixpoint for_rules (rules : list Rule) (string : jsstring)
    (tokenType tokenValue : value) : M (value * value) :=
  match rules with
  | [] => ret (tokenType, tokenValue)
  | (regexp, handle) :: rest =>
      matched <- _match string regexp ;;
      match matched with
      | None => for_rules rest string tokenType Null        (* continue *)
      | Some v =>
          match handle v with
          | Array items => ret (element items 1, element items 0)
          | tokenType => ret (tokenType, String v)
          end                                                (* break *)
      end
  end.

(** The generator body from the loop test to the next [yield] ([Some]),
    or to its end ([None]). *)
Definition _genTokens : M (option Token) :=
  more <- hasMoreTokens ;;
  if more : bool then
    whole <- this _string ;;
    cursor <- this _cursor ;;
    match whole with
    | None => throw TypeError
    | Some s =>
        let string := slice s cursor in
        spec <- this _spec ;;
        found <- for_rules spec string Undefined Undefined ;;
        let tokenType := fst found in
        let tokenValue := snd found in
        (if is_nullish tokenType then
           line <- this _currentLine ;;
           column <- this _currentColumn ;;
           throwUnexpectedToken (string0 string) line column
         else ret tt) ;;
        token <- _toToken tokenType tokenValue ;;
        ret (Some token)
    end
  else ret None.

(** [this._gen.next()]: a completed generator stays completed; one that
    returns or throws completes. [None] is [{value: undefined, done: true}]. *)
Definition gen_next : M (option Token) :=
  fun t =>
    match _gen t with
    | GenCompleted => (Normal None, t)
    | GenSuspended =>
        match _genTokens t with
        | (Normal (Some token), t') => (Normal (Some token), t')
        | (Normal None, t') => (Normal None, Set_.gen GenCompleted t')
        | (Throw e, t') => (Throw e, Set_.gen GenCompleted t')
        end
    end.

Definition getNextToken : M (option Token) := gen_next.

(** [tokens()] and [[Symbol.iterator]()] both hand out [this._gen]: there
    is one sequence per [init], which [getNextToken] and a [for...of]
    over the instance advance alike. *)
Definition tokens : M Generator := this _gen.
Definition iterator : M Generator := this _gen.

(** [[...this]]: pulls [this._gen] until it is done. The loop need not
    end (a rule can match the empty string), so it takes fuel: [None] is
    fuel exhausted. *)
Fixpoint spread (fuel : nat) (t : Tokenizer)
  : option (completion (list Token) * Tokenizer) :=
  match fuel with
  | O => None
  | S fuel' =>
      match gen_next t with
      | (Throw e, t') => Some (Throw e, t')
      | (Normal None, t') => Some (Normal [], t')
      | (Normal (Some token), t') =>
          match spread fuel' t' with
          | Some (Normal rest, t'') => Some (Normal (token :: rest), t'')
          | other => other
          end
      end
  end.

(** *** [getAllTokens] *)
Definition getAllTokens (fuel : nat) (t : Tokenizer)
  : option (completion (list Token) * Tokenizer) :=
  match _tokens t with
  | None =>                                  (* this._tokens == null *)
      match spread fuel t with
      | Some (Normal all, t') => Some (Normal all, Set_.tokens (Some all) t')
      | other => other
      end
  | Some tokens => Some (Normal tokens, t)
  end.

End TokenizerClass.

(* ================================================================= *)
(** ** A regular expression engine for a subset of the RegExp syntax

    Enough of the runtime's engine to run the class: literals, [.], the
    escapes [\d \w \s \D \W \S \n \t \r], character classes with ranges and
    negation, groups, [|], the greedy quantifiers [* + ?], the assertions
    [^] and [$], and the flag [i].  A pattern outside the subset does not
    parse, and then nothing matches it.  Matching is the backtracking
    search of the language: alternatives left to right, quantifiers
    greedy, start positions from the left. *)

Module Rx.

Inductive class_item :=
| Single (c : ascii)
| Range (lo hi : ascii)
| Digit | Word | Space
| NotDigit | NotWord | NotSpace.

Inductive re :=
| Empty
| Char (c : ascii)
| Dot
| Class (negated : bool) (items : list class_item)
| Bol
| Eol
| Seq (r1 r2 : re)
| Alt (r1 r2 : re)
| Star (r : re)
| Plus (r : re)
| Opt (r : re)
| Group (r : re).

(** *** Characters *)

Definition code (c : ascii) : nat := nat_of_ascii c.

Definition backslash : ascii := "092"%char.

Definition between (lo hi : nat) (c : ascii) : bool :=
  (Nat.leb lo (code c) && Nat.leb (code c) hi)%bool.

Definition is_digit (c : ascii) : bool := between 48 57 c.
Definition is_upper (c : ascii) : bool := between 65 90 c.
Definition is_lower (c : ascii) : bool := between 97 122 c.
Definition is_word (c : ascii) : bool :=
  (is_digit c || is_upper c || is_lower c || Nat.eqb (code c) 95)%bool.
(** tab, line feed, vertical tab, form feed, carriage return, space *)
Definition is_space (c : ascii) : bool :=
  (between 9 13 c || Nat.eqb (code c) 32)%bool.
Definition is_line_terminator (c : ascii) : bool :=
  (Nat.eqb (code c) 10 || Nat.eqb (code c) 13)%bool.

Definition to_upper (c : ascii) : ascii :=
  if is_lower c then ascii_of_nat (code c - 32) else c.
Definition to_lower (c : ascii) : ascii :=
  if is_upper c then ascii_of_nat (code c + 32) else c.

Definition in_item (it : class_item) (c : ascii) : bool :=
  match it with
  | Single x => Ascii.eqb x c
  | Range lo hi => between (code lo) (code hi) c
  | Digit => is_digit c
  | Word => is_word c
  | Space => is_space c
  | NotDigit => negb (is_digit c)
  | NotWord => negb (is_word c)
  | NotSpace => negb (is_space c)
  end.

(** With the flag [i] a character matches when its upper-case or
    lower-case form does. *)
Definition item_matches (ignoreCase : bool) (it : class_item) (c : ascii) : bool :=
  if ignoreCase then (in_item it (to_upper c) || in_item it (to_lower c))%bool
  else in_item it c.

Definition class_matches (ignoreCase negated : bool) (items : list class_item)
    (c : ascii) : bool :=
  xorb negated (existsb (fun it => item_matches ignoreCase it c) items).

(** *** The matcher, in continuation-passing style.  [i] is the index of
    the current position in the whole string, [s] what is left of it;
    the continuation gets the position after the match and returns the
    rest of the string at the end of the whole match. *)

Definition Cont := nat -> jsstring -> option jsstring.

Definition one (accepts : ascii -> bool) (i : nat) (s : jsstring) (k : Cont)
  : option jsstring :=
  match s with
  | c :: rest => if accepts c then k (S i) rest else None
  | [] => None
  end.

(** Greedy iteration of [step]; an iteration that consumes nothing is
    not taken. [fuel] bounds the iterations by the characters left. *)
Fixpoint iterate (step : nat -> jsstring -> Cont -> option jsstring)
    (fuel : nat) (i : nat) (s : jsstring) (k : Cont) : option jsstring :=
  match fuel with
  | O => k i s
  | S fuel' =>
      match step i s (fun i' s' =>
               if Nat.ltb (length s') (length s)
               then iterate step fuel' i' s' k
               else None) with
      | Some result => Some result
      | None => k i s
      end
  end.

Fixpoint run (ignoreCase : bool) (r : re) (i : nat) (s : jsstring) (k : Cont)
  : option jsstring :=
  match r with
  | Empty => k i s
  | Char c => one (item_matches ignoreCase (Single c)) i s k
  | Dot => one (fun c => negb (is_line_terminator c)) i s k
  | Class negated items => one (class_matches ignoreCase negated items) i s k
  | Bol => if Nat.eqb i 0 then k i s else None
  | Eol => match s with [] => k i s | _ :: _ => None end
  | Seq r1 r2 => run ignoreCase r1 i s (fun i' s' => run ignoreCase r2 i' s' k)
  | Alt r1 r2 =>
      match run ignoreCase r1 i s k with
      | Some result => Some result
      | None => run ignoreCase r2 i s k
      end
  | Star r' => iterate (run ignoreCase r') (length s) i s k
  | Plus r' =>
      run ignoreCase r' i s
        (fun i' s' => iterate (run ignoreCase r') (length s') i' s' k)
  | Opt r' =>
      match run ignoreCase r' i s k with
      | Some result => Some result
      | None => k i s
      end
  | Group r' => run ignoreCase r' i s k
  end.

(** The leftmost start position with a match. *)
Fixpoint search (ignoreCase : bool) (r : re) (i : nat) (s : jsstring)
  : option MatchResult :=
  match run ignoreCase r i s (fun _ rest => Some rest) with
  | Some rest =>
      Some {| match_index := i;
              match_0 := firstn (length s - length rest) s |}
  | None =>
      match s with
      | [] => None
      | _ :: s' => search ignoreCase r (S i) s'
      end
  end.

(** *** The parser of pattern sources *)

Definition escape_item (c : ascii) : class_item :=
  if Ascii.eqb c "d" then Digit
  else if Ascii.eqb c "w" then Word
  else if Ascii.eqb c "s" then Space
  else if Ascii.eqb c "D" then NotDigit
  else if Ascii.eqb c "W" then NotWord
  else if Ascii.eqb c "S" then NotSpace
  else if Ascii.eqb c "n" then Single "010"
  else if Ascii.eqb c "t" then Single "009"
  else if Ascii.eqb c "r" then Single "013"
  else Single c.

(** Only punctuation may be escaped as itself; other letters and digits
    after a backslash are outside the subset. *)
Definition escape_supported (c : ascii) : bool :=
  (negb (is_word c) || existsb (Ascii.eqb c)
     ["d"; "w"; "s"; "D"; "W"; "S"; "n"; "t"; "r"]%char)%bool.

(** The items of a class, after the opening bracket, up to the closing one. *)
Fixpoint parse_class (s : jsstring) : option (list class_item * jsstring) :=
  match s with
  | [] => None
  | c :: rest =>
      if Ascii.eqb c "]" then Some ([], rest)
      else if Ascii.eqb c backslash then
        match rest with
        | e :: rest' =>
            if escape_supported e then
              match parse_class rest' with
              | Some (items, out) => Some (escape_item e :: items, out)
              | None => None
              end
            else None
        | [] => None
        end
      else
        match rest with
        | d :: hi :: rest' =>
            if (Ascii.eqb d "-" && negb (Ascii.eqb hi "]")
                && negb (Ascii.eqb hi backslash))%bool then
              match parse_class rest' with
              | Some (items, out) => Some (Range c hi :: items, out)
              | None => None
              end
            else
              match parse_class rest with
              | Some (items, out) => Some (Single c :: items, out)
              | None => None
              end
        | _ =>
            match parse_class rest with
            | Some (items, out) => Some (Single c :: items, out)
            | None => None
            end
        end
  end.

Definition quantified (r : re) (s : jsstring) : option (re * jsstring) :=
  match s with
  | q :: rest =>
      let lazy_or_stacked :=
        match rest with
        | q' :: _ => existsb (Ascii.eqb q') ["*"; "+"; "?"; "{"]%char
        | [] => false
        end in
      if Ascii.eqb q "*" then if lazy_or_stacked then None else Some (Star r, rest)
      else if Ascii.eqb q "+" then if lazy_or_stacked then None else Some (Plus r, rest)
      else if Ascii.eqb q "?" then if lazy_or_stacked then None else Some (Opt r, rest)
      else if Ascii.eqb q "{" then None
      else Some (r, s)
  | [] => Some (r, s)
  end.

(** Disjunction, alternative (a sequence of terms) and term, each call
    taking one unit of fuel. *)
Fixpoint parse_alt (fuel : nat) (s : jsstring) {struct fuel}
  : option (re * jsstring) :=
  match fuel with
  | O => None
  | S fuel' =>
      match parse_seq fuel' s with
      | Some (r1, c :: rest) =>
          if Ascii.eqb c "|" then
            match parse_alt fuel' rest with
            | Some (r2, out) => Some (Alt r1 r2, out)
            | None => None
            end
          else Some (r1, c :: rest)
      | other => other
      end
  end
with parse_seq (fuel : nat) (s : jsstring) {struct fuel}
  : option (re * jsstring) :=
  match fuel with
  | O => None
  | S fuel' =>
      match s with
      | [] => Some (Empty, [])
      | c :: _ =>
          if (Ascii.eqb c "|" || Ascii.eqb c ")")%bool then Some (Empty, s)
          else
            match parse_term fuel' s with
            | Some (r1, rest) =>
                match parse_seq fuel' rest with
                | Some (Empty, out) => Some (r1, out)
                | Some (r2, out) => Some (Seq r1 r2, out)
                | None => None
                end
            | None => None
            end
      end
  end
with parse_term (fuel : nat) (s : jsstring) {struct fuel}
  : option (re * jsstring) :=
  match fuel with
  | O => None
  | S fuel' =>
      match s with
      | [] => None
      | c :: rest =>
          if Ascii.eqb c "^" then Some (Bol, rest)
          else if Ascii.eqb c "$" then Some (Eol, rest)
          else if Ascii.eqb c "." then quantified Dot rest
          else if Ascii.eqb c backslash then
            match rest with
            | e :: rest' =>
                if escape_supported e
                then quantified (Class false [escape_item e]) rest'
                else None
            | [] => None
            end
          else if Ascii.eqb c "[" then
            match rest with
            | n :: rest' =>
                if Ascii.eqb n "^" then
                  match parse_class rest' with
                  | Some (items, out) => quantified (Class true items) out
                  | None => None
                  end
                else
                  match parse_class rest with
                  | Some (items, out) => quantified (Class false items) out
                  | None => None
                  end
            | [] => None
            end
          else if Ascii.eqb c "(" then
            let body :=
              match rest with
              | q :: rest' =>
                  if Ascii.eqb q "?" then
                    match rest' with
                    | k :: rest'' =>
                        if Ascii.eqb k ":" then Some rest'' else None
                    | [] => None
                    end
                  else Some rest
              | [] => None
              end in
            match body with
            | Some inner =>
                match parse_alt fuel' inner with
                | Some (r, close :: out) =>
                    if Ascii.eqb close ")" then quantified (Group r) out
                    else None
                | _ => None
                end
            | None => None
            end
          else if existsb (Ascii.eqb c) ["*"; "+"; "?"; "{"; "}"; "]"]%char
          then None
          else quantified (Char c) rest
      end
  end.

(** A whole source: the disjunction must use it all. *)
Definition parse (pattern : jsstring) : option re :=
  match parse_alt (4 * length pattern + 4) pattern with
  | Some (r, []) => Some r
  | _ => None
  end.

(** The flags the subset knows: none, or [i]. *)
Definition parse_flags (f : jsstring) : option bool :=
  match f with
  | [] => Some false
  | [c] => if Ascii.eqb c "i" then Some true else None
  | _ => None
  end.

Definition exec (s : jsstring) (regexp : RegExp) : option MatchResult :=
  match parse_flags (flags regexp), parse (source regexp) with
  | Some ignoreCase, Some r => search ignoreCase r 0 s
  | _, _ => None
  end.

#[global] Instance engine : RegExpEngine := {| string_match := exec |}.

(** [/source/] and [/source/i], as literals. *)
Definition literal (pattern : string) : RegExp :=
  {| source := str pattern; flags := [] |}.
Definition literal_i (pattern : string) : RegExp :=
  {| source := str pattern; flags := str "i" |}.

End Rx.

(* ================================================================= *)
(** ** Vocabulary of the statements *)

Section Vocabulary.

Context {engine : RegExpEngine}.

(** What the engine owes the class: element 0 of a match is the part of
    the string that starts at the match's index. *)
Definition engine_sound : Prop :=
  forall s regexp m,
    string_match s regexp = Some m ->
    exists before after,
      s = before ++ match_0 m ++ after /\ length before = match_index m.

(** A pattern that only ever matches at the start of the string. *)
Definition anchored (regexp : RegExp) : Prop :=
  forall s m, string_match s regexp = Some m -> match_index m = O.

(** A handler that returns a type and leaves the value alone: never an
    array. *)
Definition plain_handler (handle : jsstring -> value) : Prop :=
  forall v items, handle v <> Array items.

(** The first rule, in order, whose pattern matches [string]. *)
Fixpoint first_match (rules : list Rule) (string : jsstring)
  : option (Rule * MatchResult) :=
  match rules with
  | [] => None
  | rule :: rest =>
      match string_match string (fst rule) with
      | Some m => Some (rule, m)
      | None => first_match rest string
      end
  end.

(** Token type and token value after the handler's result is read. *)
Definition resolve (handled : value) (matched : jsstring) : value * value :=
  match handled with
  | Array items => (element items 1, element items 0)
  | tokenType => (tokenType, String matched)
  end.

(** The instance after a successful [_match] of [matched]. *)
Definition advance (matched : jsstring) (t : Tokenizer) : Tokenizer :=
  {| _spec := _spec t;
     _tokens := _tokens t;
     _string := _string t;
     _cursor := _cursor t + len matched;
     _currentLine := _currentLine t + Z.of_nat (length (nl_indices matched));
     _currentColumn :=
       _cursor t + len matched
       - last (map (fun index => _cursor t + index + 1) (nl_indices matched))
              (_currentLineBeginOffset t);
     _currentLineBeginOffset :=
       last (map (fun index => _cursor t + index + 1) (nl_indices matched))
            (_currentLineBeginOffset t);
     _tokenStartOffset := _cursor t;
     _tokenEndOffset := _cursor t + len matched;
     _tokenStartLine := _currentLine t;
     _tokenEndLine := _currentLine t + Z.of_nat (length (nl_indices matched));
     _tokenStartColumn := _cursor t - _currentLineBeginOffset t;
     _tokenEndColumn :=
       _cursor t + len matched
       - last (map (fun index => _cursor t + index + 1) (nl_indices matched))
              (_currentLineBeginOffset t);
     _gen := _gen t |}.

(** The token [_toToken] builds from the instance [t]. *)
Definition token_of (t : Tokenizer) (found : value * value) : Token :=
  {| type := fst found;
     value_ := or_empty_string (snd found);
     startOffset := _tokenStartOffset t;
     endOffset := _tokenEndOffset t;
     startLine := _tokenStartLine t;
     endLine := _tokenEndLine t;
     startColumn := _tokenStartColumn t;
     endColumn := _tokenEndColumn t |}.

(** The instance at the point where token production gives up: as it
    was when no rule matched, after the match when a rule matched. *)
Definition failure_state (t : Tokenizer) (string : jsstring) : Tokenizer :=
  match first_match (_spec t) string with
  | Some (_, m) => advance (match_0 m) t
  | None => t
  end.

(** What holds of the instance from [init(input)] on, whatever is pulled:
    the spec, the token array and the input stay, the cursor is inside
    the input, the current line began at or before the cursor, and the
    current column is the cursor's distance from there. *)
Definition scanning (spec : list Rule) (input : jsstring) (t : Tokenizer) : Prop :=
  _spec t = spec
  /\ _tokens t = Some []
  /\ _string t = Some input
  /\ 0 <= _currentLineBeginOffset t <= _cursor t
  /\ _cursor t <= len input
  /\ _currentColumn t = _cursor t - _currentLineBeginOffset t
  /\ 1 <= _currentLine t.

(** No pattern of the rules matches the empty string. *)
Definition no_empty_match (rules : list Rule) : Prop :=
  forall rule s m,
    In rule rules -> string_match s (fst rule) = Some m -> match_0 m <> [].

(** Spans that follow one another from offset [from] to offset [to]. *)
Fixpoint chained (from : Z) (tokens : list Token) (to : Z) : Prop :=
  match tokens with
  | [] => from = to
  | token :: rest =>
      startOffset token = from /\ startOffset token <= endOffset token
      /\ chained (endOffset token) rest to
  end.

(** The text of a token's value. *)
Definition value_text (token : Token) : jsstring :=
  match value_ token with
  | String s => s
  | _ => []
  end.

(** [n] calls of [getNextToken], the results dropped. *)
Fixpoint pull (n : nat) (t : Tokenizer) : Tokenizer :=
  match n with
  | O => t
  | S n' => pull n' (snd (getNextToken t))
  end.

End Vocabulary.

(** [lines.join('\n')] *)
Fixpoint join_newline (lines : list jsstring) : jsstring :=
  match lines with
  | [] => []
  | [line] => line
  | line :: rest => line ++ newline :: join_newline rest
  end.

(* ================================================================= *)
(** ** Concrete specs *)

Module Examples.
Import Rx.

(** [v => 'LABEL'] *)
Definition label (name : string) : jsstring -> value :=
  fun _ => String (str name).

(** The spec of the README and of the tests. *)
Definition defaultSpec : RawSpec :=
  SpecRules [ (literal "\s+", label "WS");
              (literal "\d+", label "NUMBER");
              (literal "\w+", label "WORD") ].

(** [Tokenizer.fromSpec(spec)] followed by [init(input)]. *)
Definition start (spec : RawSpec) (input : jsstring) : Tokenizer :=
  snd (init (Some input) (snd (fromSpec spec))).

(** Two rules that match at the same place, the later one longer. *)
Definition overlapSpec : RawSpec :=
  SpecRules [ (literal "a", label "A");
              (literal "ab", label "AB");
              (literal "b", label "B") ].

(** A handler that rewrites the value: ['...'] without its quotes. *)
Definition stripQuotes (v : jsstring) : jsstring := removelast (tl v).
Definition quotedSpec : RawSpec :=
  SpecRules [ (literal "'[^']*'", fun v => Array [String (stripQuotes v); String (str "STRING")]) ].


(** One rule for everything, newlines included. *)
Definition anySpec : RawSpec :=
  SpecRules [ (literal "[\s\S]+", label "ANY") ].

Definition digitsSpec : RawSpec :=
  SpecRules [ (literal "\d+", label "NUMBER") ].

Definition ignoreCaseSpec : RawSpec :=
  SpecRules [ (literal_i "a", label "A") ].

(** The tokens of [[...tokenizer]], and the instance afterwards. *)
Definition emitted (fuel : nat) (t : Tokenizer) : list Token :=
  match spread fuel t with
  | Some (Normal tokens, _) => tokens
  | _ => []
  end.

Definition drained (fuel : nat) (t : Tokenizer) : Tokenizer :=
  match spread fuel t with
  | Some (_, t') => t'
  | None => t
  end.

Definition token (ty text : string) (so eo sl el sc ec : Z) : Token :=
  {| type := String (str ty); value_ := String (str text);
     startOffset := so; endOffset := eo; startLine := sl; endLine := el;
     startColumn := sc; endColumn := ec |}.

End Examples.

(* ================================================================= *)
(** ** Calls in sequence *)

(** The calls of the public interface that assign fields of the instance. *)
Inductive Call :=
| CallInit (string : option jsstring)
| CallInitString (string : option jsstring)
| CallReset
| CallGetNextToken.

Section Calls.

Context {engine : RegExpEngine}.

(** The instance after a call, whether the call returned or raised. *)
Definition perform (call : Call) (t : Tokenizer) : Tokenizer :=
  match call with
  | CallInit string => snd (init string t)
  | CallInitString string => snd (initString string t)
  | CallReset => snd (reset t)
  | CallGetNextToken => snd (getNextToken t)
  end.

Fixpoint perform_all (calls : list Call) (t : Tokenizer) : Tokenizer :=
  match calls with
  | [] => t
  | call :: rest => perform_all rest (perform call t)
  end.

End Calls.

(** The part of the input before the cursor. *)
Definition consumed (input : jsstring) (t : Tokenizer) : jsstring :=
  firstn (Z.to_nat (_cursor t)) input.

(** The line bookkeeping against the input: the current line is one more
    than the number of newlines consumed, and it began just past the last
    of them. *)
Definition located (input : jsstring) (t : Tokenizer) : Prop :=
  _currentLine t = 1 + Z.of_nat (length (nl_indices (consumed input t)))
  /\ _currentLineBeginOffset t
     = last (map (fun i => i + 1) (nl_indices (consumed input t))) 0.

Module MoreExamples.

(** A rule whose pattern matches the empty string. *)
Definition starSpec : RawSpec :=
  SpecRules [ (Rx.literal "a*", Examples.label "A") ].

(** A rule whose handler returns nothing. *)
Definition undefinedSpec : RawSpec :=
  SpecRules [ (Rx.literal "a+", fun _ => Undefined) ].

(** A rule whose pattern is an alternation. *)
Definition alternationSpec : RawSpec :=
  SpecRules [ (Rx.literal "a|b", Examples.label "AB") ].

End MoreExamples.

(* ================================================================= *)
(** ** The methods, as equations *)

Ltac run_method :=
  unfold bind, this, assign, ret, throw, lift; simpl.

Section MethodEquations.

Context {engine : RegExpEngine}.

Lemma init_eq (string : option jsstring) (t : Tokenizer) :
  _tokens t <> None ->
  init string t =
    (Normal tt,
     {| _spec := _spec t; _tokens := Some []; _string := string;
        _cursor := 0; _currentLine := 1; _currentColumn := 0;
        _currentLineBeginOffset := 0;
        _tokenStartOffset := 0; _tokenEndOffset := 0;
        _tokenStartLine := 1; _tokenEndLine := 1;
        _tokenStartColumn := 0; _tokenEndColumn := 0;
        _gen := GenSuspended |}).
Proof.
  intros Htokens. unfold init. run_method.
  destruct (_tokens t) as [l|] eqn:E; [reflexivity | congruence].
Qed.

Lemma last_default_irrelevant {A} (l : list A) (x d d' : A) :
  last (x :: l) d = last (x :: l) d'.
Proof.
  revert x. induction l as [|y l IH]; intros x; [reflexivity|].
  change (last (y :: l) d = last (y :: l) d'). apply IH.
Qed.

Lemma for_newlines_eq (indices : list Z) (t : Tokenizer) :
  for_newlines indices t =
    (Normal tt,
     Set_.currentLineBeginOffset
       (last (map (fun index => _tokenStartOffset t + index + 1) indices)
             (_currentLineBeginOffset t))
       (Set_.currentLine (_currentLine t + Z.of_nat (length indices)) t)).
Proof.
  revert t. induction indices as [|index rest IH]; intros t.
  - destruct t; simpl. unfold ret, Set_.currentLineBeginOffset, Set_.currentLine.
    simpl. rewrite Z.add_0_r. reflexivity.
  - cbn [for_newlines]. unfold newline_found. run_method. rewrite IH.
    unfold Set_.currentLineBeginOffset, Set_.currentLine. cbn [_currentLine
      _tokenStartOffset _currentLineBeginOffset _spec _tokens _string _cursor
      _currentColumn _tokenEndOffset _tokenStartLine _tokenEndLine
      _tokenStartColumn _tokenEndColumn _gen].
    f_equal. f_equal.
    + cbn [length]. lia.
    + destruct rest as [|index' rest']; [reflexivity|].
      cbn [map]. symmetry.
      change (last (_ :: ?y :: ?l) ?d) with (last (y :: l) d).
      apply last_default_irrelevant.
Qed.

Lemma captureLocation_then_advance (matched : jsstring) (t : Tokenizer) :
  (_captureLocation matched ;;
   cursor <- this _cursor ;;
   assign (Set_.cursor (cursor + len matched))) t
  = (Normal tt, advance matched t).
Proof.
  unfold _captureLocation. run_method. rewrite for_newlines_eq.
  reflexivity.
Qed.

Lemma match_some (string : jsstring) (regexp : RegExp) (m : MatchResult)
    (t : Tokenizer) :
  string_match string regexp = Some m ->
  _match string regexp t = (Normal (Some (match_0 m)), advance (match_0 m) t).
Proof.
  intros Hm. unfold _match. rewrite Hm.
  pose proof (captureLocation_then_advance (match_0 m) t) as H.
  unfold bind in *.
  destruct (_captureLocation (match_0 m) t) as [[u|e] t1]; [|discriminate].
  unfold this, assign, ret in *. simpl in *. congruence.
Qed.

Lemma match_none (string : jsstring) (regexp : RegExp) (t : Tokenizer) :
  string_match string regexp = None ->
  _match string regexp t = (Normal None, t).
Proof. intros Hm. unfold _match. rewrite Hm. reflexivity. Qed.

Lemma for_rules_eq (rules : list Rule) (string : jsstring)
    (tokenType tokenValue : value) (t : Tokenizer) :
  match first_match rules string with
  | Some (rule, m) =>
      for_rules rules string tokenType tokenValue t
      = (Normal (resolve (snd rule (match_0 m)) (match_0 m)),
         advance (match_0 m) t)
  | None =>
      exists tokenValue',
        for_rules rules string tokenType tokenValue t
        = (Normal (tokenType, tokenValue'), t)
  end.
Proof.
  revert tokenValue.
  induction rules as [|[regexp handle] rest IH]; intros tokenValue.
  - simpl. eexists. reflexivity.
  - cbn [first_match for_rules fst].
    destruct (string_match string regexp) as [m|] eqn:Hm.
    + unfold bind. rewrite (match_some _ _ _ _ Hm). cbn [snd].
      unfold resolve. destruct (handle (match_0 m)); reflexivity.
    + unfold bind. rewrite (match_none _ _ _ Hm).
      specialize (IH Null).
      destruct (first_match rest string) as [[rule m]|]; exact IH.
Qed.

Lemma throwUnexpectedToken_throws {A} symbol line column (t : Tokenizer) :
  exists e, @throwUnexpectedToken A symbol line column t = (Throw e, t).
Proof.
  unfold throwUnexpectedToken. run_method.
  destruct (_string t) as [s|]; [|eexists; reflexivity].
  destruct (item (split_newline s) (line - 1)) as [[|c l]|];
    try (eexists; reflexivity).
  unfold repeat_space. destruct (column <? 0); eexists; reflexivity.
Qed.

Lemma throwUnexpectedToken_retype {A B} symbol line column (t : Tokenizer) :
  exists e,
    @throwUnexpectedToken A symbol line column t = (Throw e, t)
    /\ @throwUnexpectedToken B symbol line column t = (Throw e, t).
Proof.
  unfold throwUnexpectedToken. run_method.
  destruct (_string t) as [s|]; [|eexists; split; reflexivity].
  destruct (item (split_newline s) (line - 1)) as [[|c l]|];
    try (eexists; split; reflexivity).
  unfold repeat_space. destruct (column <? 0); eexists; split; reflexivity.
Qed.

Lemma throwUnexpectedToken_reads_string {A} symbol line column
    (t1 t2 : Tokenizer) :
  _string t1 = _string t2 ->
  fst (@throwUnexpectedToken A symbol line column t1)
  = fst (@throwUnexpectedToken A symbol line column t2).
Proof.
  unfold throwUnexpectedToken. run_method. intros ->.
  destruct (_string t2) as [s|]; [|reflexivity].
  destruct (item (split_newline s) (line - 1)) as [[|c l]|];
    try reflexivity.
  unfold repeat_space. destruct (column <? 0); reflexivity.
Qed.

(** With a string bound, it raises, and the SyntaxError unless the column
    is negative. *)
Lemma throwUnexpectedToken_raises {A} symbol line column (t : Tokenizer)
    (input : jsstring) :
  _string t = Some input ->
  exists e,
    fst (@throwUnexpectedToken A symbol line column t) = Throw e
    /\ (0 <= column ->
        exists lineData,
          e = SyntaxError (unexpected_message lineData symbol line column)).
Proof.
  intros Hs. unfold throwUnexpectedToken. run_method. rewrite Hs.
  destruct (item (split_newline input) (line - 1)) as [[|c l]|];
    try (eexists; split; [reflexivity | intros _; eexists; reflexivity]).
  unfold repeat_space. destruct (column <? 0) eqn:Hneg.
  - eexists; split; [reflexivity|]. apply Z.ltb_lt in Hneg. lia.
  - eexists; split; [reflexivity | intros _; eexists; reflexivity].
Qed.

Lemma toToken_eq (tokenType tokenValue : value) (t : Tokenizer) :
  _toToken tokenType tokenValue t
  = (Normal (token_of t (tokenType, tokenValue)), t).
Proof. reflexivity. Qed.

(** One resumption of the generator body, by cases. *)
Lemma genTokens_eq (t : Tokenizer) (input : jsstring) :
  _string t = Some input ->
  _genTokens t =
    if _cursor t <? len input then
      let string := slice input (_cursor t) in
      match first_match (_spec t) string with
      | None =>
          throwUnexpectedToken (string0 string)
            (_currentLine t) (_currentColumn t) t
      | Some (rule, m) =>
          let found := resolve (snd rule (match_0 m)) (match_0 m) in
          let t' := advance (match_0 m) t in
          if is_nullish (fst found) then
            throwUnexpectedToken (string0 string)
              (_currentLine t') (_currentColumn t') t'
          else (Normal (Some (token_of t' found)), t')
      end
    else (Normal None, t).
Proof.
  intros Hs. unfold _genTokens, hasMoreTokens.
  unfold bind, this, ret, throw. rewrite Hs.
  destruct (_cursor t <? len input); [|reflexivity].
  cbv beta zeta. rewrite Hs.
  pose proof (for_rules_eq (_spec t) (slice input (_cursor t))
                Undefined Undefined t) as Hscan.
  destruct (first_match (_spec t) (slice input (_cursor t)))
    as [[rule m]|].
  - rewrite Hscan. cbn [fst snd].
    destruct (is_nullish (fst (resolve (snd rule (match_0 m)) (match_0 m))))
      eqn:Hnull.
    + destruct (throwUnexpectedToken_retype (A:=unit) (B:=option Token)
                  (string0 (slice input (_cursor t)))
                  (_currentLine (advance (match_0 m) t))
                  (_currentColumn (advance (match_0 m) t))
                  (advance (match_0 m) t)) as [e [H1 H2]].
      rewrite H1, H2. reflexivity.
    + rewrite toToken_eq. destruct (resolve _ _); reflexivity.
  - destruct Hscan as [tokenValue' Hscan]. rewrite Hscan. cbn [fst is_nullish].
    destruct (throwUnexpectedToken_retype (A:=unit) (B:=option Token)
                (string0 (slice input (_cursor t)))
                (_currentLine t) (_currentColumn t) t) as [e [H1 H2]].
    rewrite H1, H2. reflexivity.
Qed.

(** [next()] on a suspended generator, by cases. *)
Lemma gen_next_eq (t : Tokenizer) (input : jsstring) :
  _string t = Some input ->
  _gen t = GenSuspended ->
  gen_next t =
    if _cursor t <? len input then
      let string := slice input (_cursor t) in
      let t' := failure_state t string in
      match first_match (_spec t) string with
      | Some (rule, m) =>
          let found := resolve (snd rule (match_0 m)) (match_0 m) in
          if is_nullish (fst found) then
            (fst (throwUnexpectedToken (A:=option Token) (string0 string)
                    (_currentLine t') (_currentColumn t') t'),
             Set_.gen GenCompleted t')
          else (Normal (Some (token_of t' found)), t')
      | None =>
          (fst (throwUnexpectedToken (A:=option Token) (string0 string)
                  (_currentLine t') (_currentColumn t') t'),
           Set_.gen GenCompleted t')
      end
    else (Normal None, Set_.gen GenCompleted t).
Proof.
  intros Hs Hgen. unfold gen_next. rewrite Hgen, (genTokens_eq t input Hs).
  destruct (_cursor t <? len input); [|reflexivity].
  cbv zeta. unfold failure_state.
  destruct (first_match (_spec t) (slice input (_cursor t)))
    as [[rule m]|].
  - destruct (is_nullish _); [|reflexivity].
    destruct (throwUnexpectedToken_throws (A:=option Token)
                (string0 (slice input (_cursor t)))
                (_currentLine (advance (match_0 m) t))
                (_currentColumn (advance (match_0 m) t))
                (advance (match_0 m) t)) as [e He].
    rewrite He. reflexivity.
  - destruct (throwUnexpectedToken_throws (A:=option Token)
                (string0 (slice input (_cursor t)))
                (_currentLine t) (_currentColumn t) t) as [e He].
    rewrite He. reflexivity.
Qed.

Lemma gen_next_completed (t : Tokenizer) :
  _gen t = GenCompleted -> gen_next t = (Normal None, t).
Proof. intros Hgen. unfold gen_next. rewrite Hgen. reflexivity. Qed.

End MethodEquations.

(* ================================================================= *)
(** ** Rule order *)

Section RuleOrder.

Context {engine : RegExpEngine}.

Lemma first_match_skips (before after : list Rule) (rule : Rule)
    (string : jsstring) (m : MatchResult) :
  Forall (fun r => string_match string (fst r) = None) before ->
  string_match string (fst rule) = Some m ->
  first_match (before ++ rule :: after) string = Some (rule, m).
Proof.
  intros Hbefore Hm. induction Hbefore as [|r before Hr _ IH].
  - simpl. rewrite Hm. reflexivity.
  - simpl. rewrite Hr. exact IH.
Qed.

Lemma first_match_none (rules : list Rule) (string : jsstring) :
  first_match rules string = None <->
  Forall (fun r => string_match string (fst r) = None) rules.
Proof.
  induction rules as [|r rules IH]; simpl.
  - split; [constructor | reflexivity].
  - destruct (string_match string (fst r)) eqn:Hr.
    + split; [discriminate | intros H; inversion H; congruence].
    + rewrite IH. split; [intros H; constructor; assumption
                         | intros H; inversion H; assumption].
Qed.

Lemma first_match_some (rules : list Rule) (string : jsstring)
    (rule : Rule) (m : MatchResult) :
  first_match rules string = Some (rule, m) ->
  exists before after,
    rules = before ++ rule :: after
    /\ Forall (fun r => string_match string (fst r) = None) before
    /\ string_match string (fst rule) = Some m.
Proof.
  induction rules as [|r rules IH]; simpl; [discriminate|].
  destruct (string_match string (fst r)) eqn:Hr.
  - intros H. inversion H; subst. exists [], rules. auto.
  - intros H. destruct (IH H) as (before & after & -> & Hb & Hm).
    exists (r :: before), after. auto.
Qed.

(** C1: when the pattern of the rule at some index matches the remaining
    input and no earlier pattern does, the next token is the one that
    rule gives: its type and value are what the rule's handler makes of
    the matched text, its span is the matched text, and the rules after
    it play no part, whatever they would match (first match by order,
    not longest match). *)
Theorem first_matching_rule_wins
    (t : Tokenizer) (input : jsstring) (before after : list Rule)
    (regexp : RegExp) (handle : jsstring -> value) (m : MatchResult) :
  _string t = Some input ->
  _gen t = GenSuspended ->
  _cursor t < len input ->
  _spec t = before ++ (regexp, handle) :: after ->
  Forall (fun r => string_match (slice input (_cursor t)) (fst r) = None)
         before ->
  string_match (slice input (_cursor t)) regexp = Some m ->
  let found := resolve (handle (match_0 m)) (match_0 m) in
  (forall token t',
      getNextToken t = (Normal (Some token), t') ->
      type token = fst found
      /\ value_ token = or_empty_string (snd found)
      /\ startOffset token = _cursor t
      /\ endOffset token = _cursor t + len (match_0 m))
  /\ (is_nullish (fst found) = false ->
      exists token t', getNextToken t = (Normal (Some token), t'))
  /\ (forall after',
        fst (getNextToken (Set_.spec (before ++ (regexp, handle) :: after') t))
        = fst (getNextToken t)).
Proof.
  intros Hs Hgen Hcur Hspec Hbefore Hm found.
  assert (Hstep : forall after' t0,
             _string t0 = Some input -> _gen t0 = GenSuspended ->
             _cursor t0 = _cursor t ->
             _spec t0 = before ++ (regexp, handle) :: after' ->
             getNextToken t0 =
               if is_nullish (fst found) then
                 (fst (throwUnexpectedToken (A:=option Token)
                         (string0 (slice input (_cursor t)))
                         (_currentLine (advance (match_0 m) t0))
                         (_currentColumn (advance (match_0 m) t0))
                         (advance (match_0 m) t0)),
                  Set_.gen GenCompleted (advance (match_0 m) t0))
               else (Normal (Some (token_of (advance (match_0 m) t0) found)),
                     advance (match_0 m) t0)).
  { intros after' t0 Hs0 Hgen0 Hcur0 Hspec0.
    unfold getNextToken. rewrite (gen_next_eq t0 input Hs0 Hgen0).
    rewrite Hcur0. apply Z.ltb_lt in Hcur. rewrite Hcur. cbv zeta.
    unfold failure_state. rewrite Hspec0.
    pose proof (first_match_skips before after' (regexp, handle) _ m
                  Hbefore Hm) as Hfirst.
    unfold Rule in *. rewrite Hfirst. reflexivity. }
  pose proof (Hstep after t Hs Hgen eq_refl Hspec) as Ht.
  split; [|split].
  - intros token t' Hnext. rewrite Ht in Hnext.
    destruct (is_nullish (fst found)).
    { match type of Hnext with
      | context [throwUnexpectedToken ?a ?b ?c ?d] =>
          destruct (throwUnexpectedToken_throws (A:=option Token) a b c d)
            as [e He]; rewrite He in Hnext
      end.
      discriminate. }
    inversion Hnext; subst token t'.
    split; [|split; [|split]]; reflexivity.
  - intros Hnull. rewrite Ht, Hnull. eauto.
  - intros after'.
    rewrite (Hstep after' (Set_.spec (before ++ (regexp, handle) :: after') t)
               Hs Hgen eq_refl eq_refl), Ht.
    destruct (is_nullish (fst found)); [|reflexivity].
    cbn [fst].
    exact (throwUnexpectedToken_reads_string _ _ _
             (advance (match_0 m)
                (Set_.spec (before ++ (regexp, handle) :: after') t))
             (advance (match_0 m) t) eq_refl).
Qed.

End RuleOrder.

(** On input [ab] the rule for [a] is taken although the next rule would
    match [ab]. *)
Lemma first_matching_rule_wins_witness :
  (forall token t',
      getNextToken (Examples.start Examples.overlapSpec (str "ab"))
      = (Normal (Some token), t') ->
      type token = String (str "A")
      /\ value_ token = String (str "a")
      /\ startOffset token = 0
      /\ endOffset token = 1)
  /\ (exists token t',
        getNextToken (Examples.start Examples.overlapSpec (str "ab"))
        = (Normal (Some token), t')).
Proof.
  pose proof (first_matching_rule_wins (engine := Rx.engine)
                (Examples.start Examples.overlapSpec (str "ab")) (str "ab")
                []
                [(Rx.literal "^ab", Examples.label "AB");
                 (Rx.literal "^b", Examples.label "B")]
                (Rx.literal "^a") (Examples.label "A")
                {| match_index := 0; match_0 := str "a" |}
                eq_refl eq_refl eq_refl eq_refl (Forall_nil _) eq_refl)
    as (Htoken & Hsome & _).
  split; [exact Htoken | exact (Hsome eq_refl)].
Defined.

(* ================================================================= *)
(** ** Spans *)

Section Spans.

Context {engine : RegExpEngine}.
Hypothesis sound : engine_sound.

Lemma len_nonneg (s : jsstring) : 0 <= len s.
Proof. unfold len. lia. Qed.

Lemma slice_skipn (s : jsstring) (c : Z) :
  0 <= c -> slice s c = skipn (Z.to_nat c) s.
Proof.
  intros Hc. unfold slice.
  destruct (c <? 0) eqn:E; [apply Z.ltb_lt in E; lia|].
  destruct (Z.min_spec c (len s)) as [[_ ->]|[Hle ->]]; [reflexivity|].
  unfold len in *. rewrite Nat2Z.id.
  rewrite !skipn_all2; [reflexivity | lia | lia].
Qed.

Lemma len_slice (s : jsstring) (c : Z) :
  0 <= c <= len s -> len (slice s c) = len s - c.
Proof.
  intros Hc. rewrite slice_skipn by lia. unfold len in *.
  rewrite length_skipn. lia.
Qed.

Lemma match_within (s : jsstring) (regexp : RegExp) (m : MatchResult) :
  string_match s regexp = Some m -> len (match_0 m) <= len s.
Proof.
  intros Hm. destruct (sound s regexp m Hm) as (before & after & Hs & _).
  unfold len. rewrite Hs, !length_app. lia.
Qed.

Lemma init_state (string : option jsstring) (t0 t : Tokenizer) :
  init string t0 = (Normal tt, t) ->
  t = {| _spec := _spec t0; _tokens := Some []; _string := string;
         _cursor := 0; _currentLine := 1; _currentColumn := 0;
         _currentLineBeginOffset := 0;
         _tokenStartOffset := 0; _tokenEndOffset := 0;
         _tokenStartLine := 1; _tokenEndLine := 1;
         _tokenStartColumn := 0; _tokenEndColumn := 0;
         _gen := GenSuspended |}.
Proof.
  intros Hinit.
  assert (Htokens : _tokens t0 <> None).
  { intros Hnull. unfold init in Hinit. revert Hinit. run_method.
    rewrite Hnull. discriminate. }
  rewrite (init_eq string t0 Htokens) in Hinit. inversion Hinit. reflexivity.
Qed.

Lemma init_normal (string : option jsstring) (t0 t : Tokenizer) :
  init string t0 = (Normal tt, t) ->
  _string t = string /\ _cursor t = 0 /\ _gen t = GenSuspended
  /\ _spec t = _spec t0 /\ _tokens t = Some [].
Proof.
  intros Hinit. rewrite (init_state _ _ _ Hinit). repeat split.
Qed.

(** One token pulled from a suspended generator: where the instance is
    afterwards. *)
Lemma gen_next_token (t t' : Tokenizer) (input : jsstring) (token : Token) :
  _string t = Some input ->
  _gen t = GenSuspended ->
  0 <= _cursor t <= len input ->
  gen_next t = (Normal (Some token), t') ->
  exists rule m,
    first_match (_spec t) (slice input (_cursor t)) = Some (rule, m)
    /\ t' = advance (match_0 m) t
    /\ token = token_of t' (resolve (snd rule (match_0 m)) (match_0 m))
    /\ _cursor t' <= len input.
Proof.
  intros Hs Hgen Hc. rewrite (gen_next_eq t input Hs Hgen).
  destruct (_cursor t <? len input); [|discriminate].
  cbv zeta. unfold failure_state.
  destruct (first_match (_spec t) (slice input (_cursor t)))
    as [[rule m]|] eqn:Hfirst.
  - destruct (is_nullish _).
    + match goal with
      | |- context [throwUnexpectedToken ?a ?b ?c ?d] =>
          destruct (throwUnexpectedToken_throws (A:=option Token) a b c d)
            as [e He]; rewrite He
      end. discriminate.
    + intros H. inversion H; subst. exists rule, m.
      repeat split.
      destruct (first_match_some _ _ _ _ Hfirst) as (_ & _ & _ & _ & Hm).
      apply match_within in Hm. rewrite len_slice in Hm by lia.
      cbn [advance _cursor]. lia.
  - match goal with
    | |- context [throwUnexpectedToken ?a ?b ?c ?d] =>
        destruct (throwUnexpectedToken_throws (A:=option Token) a b c d)
          as [e He]; rewrite He
    end. discriminate.
Qed.

Lemma gen_next_done (t t' : Tokenizer) (input : jsstring) :
  _string t = Some input ->
  _gen t = GenSuspended ->
  gen_next t = (Normal None, t') ->
  len input <= _cursor t /\ t' = Set_.gen GenCompleted t.
Proof.
  intros Hs Hgen. rewrite (gen_next_eq t input Hs Hgen).
  destruct (_cursor t <? len input) eqn:Hlt.
  - cbv zeta.
    destruct (first_match (_spec t) (slice input (_cursor t)))
      as [[rule m]|]; [destruct (is_nullish _)|];
      try discriminate;
      match goal with
      | |- context [throwUnexpectedToken ?a ?b ?c ?d] =>
          destruct (throwUnexpectedToken_throws (A:=option Token) a b c d)
            as [e He]; rewrite He
      end; discriminate.
  - intros H. inversion H. apply Z.ltb_ge in Hlt. auto.
Qed.

Lemma spread_chained (fuel : nat) :
  forall (t t' : Tokenizer) (input : jsstring) (tokens : list Token),
    _string t = Some input ->
    _gen t = GenSuspended ->
    0 <= _cursor t <= len input ->
    spread fuel t = Some (Normal tokens, t') ->
    chained (_cursor t) tokens (len input).
Proof.
  induction fuel as [|fuel IH]; intros t t' input tokens Hs Hgen Hc;
    [discriminate|].
  cbn [spread].
  destruct (gen_next t) as [[[token|]|e] t1] eqn:Hnext.
  - destruct (gen_next_token t t1 input token Hs Hgen Hc Hnext)
      as (rule & m & Hfirst & Ht1 & Htoken & Hle).
    destruct (spread fuel t1) as [[[rest|e] t2]|] eqn:Hrest;
      try discriminate.
    intros H. inversion H; subst tokens t2.
    assert (Hcur1 : _cursor t1 = _cursor t + len (match_0 m))
      by (rewrite Ht1; reflexivity).
    pose proof (len_nonneg (match_0 m)) as Hpos.
    assert (Hchain : chained (_cursor t1) rest (len input)).
    { apply (IH t1 t'); try assumption.
      - rewrite Ht1. exact Hs.
      - rewrite Ht1. exact Hgen.
      - lia. }
    cbn [chained]. rewrite Htoken. cbn [token_of startOffset endOffset].
    rewrite Ht1. cbn [advance _tokenStartOffset _tokenEndOffset].
    rewrite <- Hcur1. repeat split; try lia. exact Hchain.
  - intros H. inversion H; subst tokens t1.
    destruct (gen_next_done t t' input Hs Hgen Hnext) as [Hge _].
    cbn [chained]. lia.
  - discriminate.
Qed.

Lemma chained_consecutive (tokens : list Token) :
  forall from to i a b,
    chained from tokens to ->
    nth_error tokens i = Some a ->
    nth_error tokens (S i) = Some b ->
    endOffset a = startOffset b.
Proof.
  induction tokens as [|token rest IH]; intros from to i a b Hch Ha Hb.
  - destruct i; discriminate.
  - destruct Hch as (_ & _ & Hrest). destruct i as [|i].
    + cbn in Ha, Hb. inversion Ha; subst a.
      destruct rest as [|next rest']; [discriminate|].
      cbn in Hb. inversion Hb; subst b.
      destruct Hrest as (Hstart & _). congruence.
    + exact (IH _ _ i a b Hrest Ha Hb).
Qed.

Lemma chained_last (tokens : list Token) :
  forall from to final,
    chained from tokens to ->
    nth_error tokens (length tokens - 1) = Some final ->
    endOffset final = to.
Proof.
  induction tokens as [|token rest IH]; intros from to final Hch Hfinal.
  - discriminate.
  - destruct Hch as (_ & _ & Hrest). destruct rest as [|next rest'].
    + cbn in Hfinal. inversion Hfinal; subst. exact Hrest.
    + apply (IH _ _ final Hrest).
      cbn [length] in *.
      replace (S (S (length rest')) - 1)%nat with (S (length rest')) in Hfinal by lia.
      replace (S (length rest') - 1)%nat with (length rest') by lia.
      exact Hfinal.
Qed.

Lemma chained_ordered (tokens : list Token) :
  forall from to,
    chained from tokens to ->
    Forall (fun token => startOffset token <= endOffset token) tokens.
Proof.
  induction tokens as [|token rest IH]; intros from to Hch; constructor.
  - apply Hch.
  - destruct Hch as (_ & _ & Hrest). exact (IH _ _ Hrest).
Qed.

(** C2: when an input tokenizes to completion, the spans of the tokens,
    in emission order, partition it: the first starts at 0, each ends
    where the next starts, the last ends at the input's length (and
    there is no token only for the empty input), and no span ends
    before it starts. *)
Theorem spans_partition_input
    (t0 t t' : Tokenizer) (input : jsstring) (fuel : nat)
    (tokens : list Token) :
  init (Some input) t0 = (Normal tt, t) ->
  spread fuel t = Some (Normal tokens, t') ->
  (forall first, nth_error tokens 0 = Some first -> startOffset first = 0)
  /\ (forall i a b,
         nth_error tokens i = Some a ->
         nth_error tokens (S i) = Some b ->
         endOffset a = startOffset b)
  /\ (forall final,
         nth_error tokens (length tokens - 1) = Some final ->
         endOffset final = len input)
  /\ (tokens = [] -> input = [])
  /\ Forall (fun token => startOffset token <= endOffset token) tokens.
Proof.
  intros Hinit Hspread.
  destruct (init_normal _ _ _ Hinit) as (Hs & Hc & Hgen & _).
  assert (Hch : chained 0 tokens (len input)).
  { rewrite <- Hc. apply (spread_chained fuel t t'); try assumption.
    rewrite Hc. pose proof (len_nonneg input). lia. }
  split; [|split; [|split; [|split]]].
  - intros first Hfirst. destruct tokens as [|token rest]; [discriminate|].
    cbn in Hfirst. inversion Hfirst; subst. apply Hch.
  - intros i a b. exact (chained_consecutive tokens 0 _ i a b Hch).
  - intros final. exact (chained_last tokens 0 _ final Hch).
  - intros ->. cbn in Hch. unfold len in Hch.
    destruct input; [reflexivity | cbn in Hch; lia].
  - exact (chained_ordered tokens 0 _ Hch).
Qed.

End Spans.

(* ================================================================= *)
(** ** The engine [Rx] keeps the engine's contract *)

Module RxFacts.
Import Rx.

Lemma search_within (ignoreCase : bool) (r : re) (s : jsstring) :
  forall (i : nat) (m : MatchResult),
    search ignoreCase r i s = Some m ->
    exists skipped after,
      s = skipped ++ match_0 m ++ after
      /\ match_index m = (i + length skipped)%nat.
Proof.
  induction s as [|c s IH]; intros i m; cbn [search].
  - destruct (run ignoreCase r i [] _) as [rest|]; [|discriminate].
    intros H. inversion H; subst m. exists [], []. cbn.
    rewrite ?firstn_nil. split; [reflexivity | lia].
  - destruct (run ignoreCase r i (c :: s) _) as [rest|].
    + intros H. inversion H; subst m. cbn [match_0 match_index].
      exists [], (skipn (length (c :: s) - length rest) (c :: s)).
      rewrite app_nil_l, firstn_skipn. split; [reflexivity | cbn; lia].
    + intros H. destruct (IH (S i) m H) as (skipped & after & Hs & Hi).
      exists (c :: skipped), after. rewrite Hs. cbn [length app].
      split; [reflexivity | lia].
Qed.

Lemma sound : engine_sound.
Proof.
  intros s regexp m. cbn [string_match engine]. unfold exec.
  destruct (parse_flags (flags regexp)) as [ignoreCase|]; [|discriminate].
  destruct (parse (source regexp)) as [r|]; [|discriminate].
  intros H. destruct (search_within _ _ _ _ _ H) as (skipped & after & Hs & Hi).
  exists skipped, after. split; [exact Hs | rewrite Hi; reflexivity].
Qed.

Lemma search_bol_later (ignoreCase : bool) (r : re) (s : jsstring) :
  forall i, search ignoreCase (Seq Bol r) (S i) s = None.
Proof.
  induction s as [|c s IH]; intros i; cbn; [reflexivity | apply IH].
Qed.

(** A pattern that begins with the assertion [^] is anchored. *)
Lemma bol_anchored (regexp : RegExp) (r : re) :
  parse (source regexp) = Some (Seq Bol r) -> anchored regexp.
Proof.
  intros Hparse s m. cbn [string_match engine]. unfold exec.
  rewrite Hparse.
  destruct (parse_flags (flags regexp)) as [ignoreCase|]; [|discriminate].
  destruct s as [|c s]; cbn [search].
  - destruct (run _ _ _ _ _); [|discriminate].
    intros H. inversion H. reflexivity.
  - destruct (run _ _ _ _ _).
    + intros H. inversion H. reflexivity.
    + rewrite search_bol_later. discriminate.
Qed.

Lemma iterate_shrinks (accepts : ascii -> bool) (fuel : nat) :
  forall i s rest,
    iterate (one accepts) fuel i s (fun _ r => Some r) = Some rest ->
    (length rest <= length s)%nat.
Proof.
  induction fuel as [|fuel IH]; intros i s rest; cbn [iterate].
  - intros H. inversion H. lia.
  - destruct s as [|c s]; cbn [one].
    + intros H. inversion H. lia.
    + destruct (accepts c).
      * destruct (Nat.ltb (length s) (length (c :: s))); cbn beta iota.
        -- destruct (iterate (one accepts) fuel (S i) s _) as [r|] eqn:Hr.
           ++ intros H. inversion H; subst r.
              apply IH in Hr. cbn [length]. lia.
           ++ intros H. inversion H. lia.
        -- intros H. inversion H. lia.
      * intros H. inversion H. lia.
Qed.

(** A pattern [^c+] for a class or escape [c] never matches the empty
    string. *)
Lemma bol_plus_class_nonempty (regexp : RegExp) (negated : bool)
    (items : list class_item) :
  parse (source regexp) = Some (Seq Bol (Plus (Class negated items))) ->
  forall s m, string_match s regexp = Some m -> match_0 m <> [].
Proof.
  intros Hparse s m. cbn [string_match engine]. unfold exec.
  rewrite Hparse.
  destruct (parse_flags (flags regexp)) as [ignoreCase|]; [|discriminate].
  destruct s as [|c s]; cbn [search run one Nat.eqb]; [discriminate|].
  destruct (class_matches ignoreCase negated items c).
  - change (run ignoreCase (Class negated items))
      with (one (class_matches ignoreCase negated items)).
    destruct (iterate _ (length s) 1 s _) as [rest|] eqn:Hrest.
    + apply iterate_shrinks in Hrest.
      intros H.
      assert (Hm : match_0 m = firstn (S (length s - length rest)) (c :: s)).
      { injection H as <-. cbn [match_0]. f_equal.
        remember (length rest) as k. destruct k; lia. }
      rewrite Hm. discriminate.
    + rewrite search_bol_later. discriminate.
  - rewrite search_bol_later. discriminate.
Qed.

End RxFacts.

(** The input [Score 250] under the README's spec: three spans,
    0-5, 5-6 and 6-9. *)
Lemma spans_partition_input_witness :
  let tokens := [ Examples.token "WORD" "Score" 0 5 1 1 0 5;
                  Examples.token "WS" " " 5 6 1 1 5 6;
                  Examples.token "NUMBER" "250" 6 9 1 1 6 9 ] in
  (forall first, nth_error tokens 0 = Some first -> startOffset first = 0)
  /\ (forall i a b,
         nth_error tokens i = Some a ->
         nth_error tokens (S i) = Some b ->
         endOffset a = startOffset b)
  /\ (forall final,
         nth_error tokens (length tokens - 1) = Some final ->
         endOffset final = 9)
  /\ (tokens = [] -> str "Score 250" = [])
  /\ Forall (fun token => startOffset token <= endOffset token) tokens.
Proof.
  refine (spans_partition_input RxFacts.sound
            (snd (fromSpec Examples.defaultSpec))
            (Examples.start Examples.defaultSpec (str "Score 250"))
            (Examples.drained 10
               (Examples.start Examples.defaultSpec (str "Score 250")))
            (str "Score 250") 10
            [ Examples.token "WORD" "Score" 0 5 1 1 0 5;
              Examples.token "WS" " " 5 6 1 1 5 6;
              Examples.token "NUMBER" "250" 6 9 1 1 6 9 ] _ _);
    vm_compute; reflexivity.
Defined.

(* ================================================================= *)
(** ** Values *)

Section Values.

Context {engine : RegExpEngine}.
Hypothesis sound : engine_sound.

Lemma slice_split (input : jsstring) (c : Z) (regexp : RegExp)
    (m : MatchResult) :
  0 <= c <= len input ->
  anchored regexp ->
  string_match (slice input c) regexp = Some m ->
  slice input c = match_0 m ++ slice input (c + len (match_0 m)).
Proof.
  intros Hc Hanchored Hm.
  destruct (sound _ _ _ Hm) as (before & after & Hs & Hbefore).
  rewrite (Hanchored _ _ Hm) in Hbefore.
  destruct before; [|discriminate]. cbn [app] in Hs.
  pose proof (len_nonneg (match_0 m)) as Hpos.
  rewrite (slice_skipn input (c + len (match_0 m))) by lia.
  rewrite Z2Nat.inj_add by lia. rewrite Nat.add_comm, <- skipn_skipn.
  rewrite <- (slice_skipn input c) by lia. rewrite Hs at 2.
  unfold len. rewrite Nat2Z.id, skipn_app, skipn_all, Nat.sub_diag.
  cbn [skipn app]. exact Hs.
Qed.

Lemma spread_values (fuel : nat) :
  forall (t t' : Tokenizer) (input : jsstring) (tokens : list Token),
    _string t = Some input ->
    _gen t = GenSuspended ->
    0 <= _cursor t <= len input ->
    Forall (fun rule => anchored (fst rule) /\ plain_handler (snd rule))
           (_spec t) ->
    spread fuel t = Some (Normal tokens, t') ->
    Forall (fun token => exists s, value_ token = String s) tokens
    /\ concat (map value_text tokens) = slice input (_cursor t).
Proof.
  induction fuel as [|fuel IH]; intros t t' input tokens Hs Hgen Hc Hrules;
    [discriminate|].
  cbn [spread].
  destruct (gen_next t) as [[[token|]|e] t1] eqn:Hnext.
  - destruct (gen_next_token sound t t1 input token Hs Hgen Hc Hnext)
      as (rule & m & Hfirst & Ht1 & Htoken & Hle).
    destruct (spread fuel t1) as [[[rest|e] t2]|] eqn:Hrest;
      try discriminate.
    intros H. inversion H; subst tokens t2.
    destruct (first_match_some _ _ _ _ Hfirst)
      as (before & after & Hspec & _ & Hm).
    assert (Hrule : anchored (fst rule) /\ plain_handler (snd rule)).
    { rewrite Forall_forall in Hrules. apply Hrules. rewrite Hspec.
      apply in_or_app. right. left. reflexivity. }
    destruct Hrule as [Hanchored Hplain].
    assert (Hvalue : value_ token = String (match_0 m)).
    { rewrite Htoken. cbn [token_of value_]. unfold resolve.
      specialize (Hplain (match_0 m)).
      destruct (snd rule (match_0 m)) as [| |label|items]; try reflexivity.
      exfalso. exact (Hplain items eq_refl). }
    assert (Hcur1 : _cursor t1 = _cursor t + len (match_0 m))
      by (rewrite Ht1; reflexivity).
    pose proof (len_nonneg (match_0 m)) as Hpos.
    destruct (IH t1 t' input rest) as [Hstrings Hconcat]; try assumption.
    + rewrite Ht1. exact Hs.
    + rewrite Ht1. exact Hgen.
    + lia.
    + rewrite Ht1. exact Hrules.
    + split.
      * constructor; [eexists; exact Hvalue | exact Hstrings].
      * cbn [map concat]. unfold value_text at 1. rewrite Hvalue, Hconcat.
        rewrite Hcur1. symmetry.
        exact (slice_split input (_cursor t) (fst rule) m Hc Hanchored Hm).
  - intros H. inversion H; subst tokens t1.
    destruct (gen_next_done t t' input Hs Hgen Hnext) as [Hge _].
    split; [constructor|]. cbn.
    rewrite slice_skipn by lia. rewrite skipn_all2; [reflexivity|].
    unfold len in *. lia.
  - discriminate.
Qed.

(** C3, amended: when every pattern of the spec matches only at the
    start of the remaining input and every handler returns a type
    without rewriting the value, the values of the tokens of an input
    that tokenizes to completion are strings whose concatenation, in
    emission order, is the input. *)
Theorem values_concatenate_to_input
    (t0 t t' : Tokenizer) (input : jsstring) (fuel : nat)
    (tokens : list Token) :
  Forall (fun rule => anchored (fst rule) /\ plain_handler (snd rule))
         (_spec t0) ->
  init (Some input) t0 = (Normal tt, t) ->
  spread fuel t = Some (Normal tokens, t') ->
  Forall (fun token => exists s, value_ token = String s) tokens
  /\ concat (map value_text tokens) = input.
Proof.
  intros Hrules Hinit Hspread.
  destruct (init_normal _ _ _ Hinit) as (Hs & Hc & Hgen & Hspec & _).
  pose proof (len_nonneg input) as Hpos.
  destruct (spread_values fuel t t' input tokens) as [Hstrings Hconcat];
    try assumption.
  - lia.
  - rewrite Hspec. exact Hrules.
  - split; [exact Hstrings|]. rewrite Hconcat, Hc.
    rewrite slice_skipn by lia. reflexivity.
Qed.

End Values.

Lemma label_plain (name : string) : plain_handler (Examples.label name).
Proof. intros v items. discriminate. Qed.

Lemma defaultSpec_anchored_plain :
  Forall (fun rule => anchored (fst rule) /\ plain_handler (snd rule))
         (_processSpec Examples.defaultSpec).
Proof.
  repeat constructor;
    try apply label_plain;
    eapply RxFacts.bol_anchored; vm_compute; reflexivity.
Qed.

(** [Score 250] under the README's spec: the values [Score], a space and
    [250] make up the input. *)
Lemma values_concatenate_to_input_witness :
  let tokens := [ Examples.token "WORD" "Score" 0 5 1 1 0 5;
                  Examples.token "WS" " " 5 6 1 1 5 6;
                  Examples.token "NUMBER" "250" 6 9 1 1 6 9 ] in
  Forall (fun token => exists s, value_ token = String s) tokens
  /\ concat (map value_text tokens) = str "Score 250".
Proof.
  refine (values_concatenate_to_input RxFacts.sound
            (snd (fromSpec Examples.defaultSpec))
            (Examples.start Examples.defaultSpec (str "Score 250"))
            (Examples.drained 10
               (Examples.start Examples.defaultSpec (str "Score 250")))
            (str "Score 250") 10
            [ Examples.token "WORD" "Score" 0 5 1 1 0 5;
              Examples.token "WS" " " 5 6 1 1 5 6;
              Examples.token "NUMBER" "250" 6 9 1 1 6 9 ]
            defaultSpec_anchored_plain _ _);
    vm_compute; reflexivity.
Defined.

(** C3 fails as stated: the quoted-string rule covers every character of
    the input ['hi'], which tokenizes to completion, and its handler
    returns the pair of the unquoted text and the type, so the one value
    is [hi], not the input. *)
Lemma rewritten_value_is_not_the_input :
  exists tokens t',
    spread 5 (Examples.start Examples.quotedSpec (str "'hi'"))
    = Some (Normal tokens, t')
    /\ map value_ tokens = [String (str "hi")]
    /\ concat (map value_text tokens) <> str "'hi'".
Proof.
  eexists. eexists. split; [vm_compute; reflexivity|].
  split; [reflexivity | discriminate].
Qed.

(* ================================================================= *)
(** ** Unexpected tokens *)

Section Unexpected.

Context {engine : RegExpEngine}.

(** X14: pulling a token from a live sequence raises exactly when the
    cursor is before the end of the input and either no pattern matches
    the remaining input or the handler of the first rule whose pattern
    matches gives a null type (the rules after it are not tried).  What
    is raised is a SyntaxError whose message ends with
    [Unexpected token: "c" at line:column], where [c] is the first
    character of the input that remained before the attempt, and
    [line], [column] are those of the instance at the throw: after a
    null handler result that is past the match, [_match] having
    advanced already.  The instance is left as it was at the throw,
    with the sequence finished. *)
Theorem unexpected_token_raised (t : Tokenizer) (input : jsstring) :
  _string t = Some input ->
  _gen t = GenSuspended ->
  let string := slice input (_cursor t) in
  let t' := failure_state t string in
  ((exists e, fst (getNextToken t) = Throw e) <->
   _cursor t < len input
   /\ (Forall (fun r => string_match string (fst r) = None) (_spec t)
       \/ exists before rule after m,
            _spec t = before ++ rule :: after
            /\ Forall (fun r => string_match string (fst r) = None) before
            /\ string_match string (fst rule) = Some m
            /\ is_nullish (fst (resolve (snd rule (match_0 m)) (match_0 m)))
               = true))
  /\ (forall e,
        fst (getNextToken t) = Throw e ->
        Throw e = fst (throwUnexpectedToken (A:=option Token) (string0 string)
                         (_currentLine t') (_currentColumn t') t')
        /\ (0 <= _currentColumn t' ->
            exists lineData,
              e = SyntaxError
                    (lineData ++ str "Unexpected token: " ++ [dquote]
                       ++ to_string (string0 string) ++ [dquote]
                       ++ str " at " ++ number_to_string (_currentLine t')
                       ++ str ":" ++ number_to_string (_currentColumn t')
                       ++ [newline]))
        /\ snd (getNextToken t) = Set_.gen GenCompleted t').
Proof.
  intros Hs Hgen string t'.
  assert (Hs' : _string t' = Some input).
  { unfold t', failure_state.
    destruct (first_match (_spec t) string) as [[rule m]|]; exact Hs. }
  unfold getNextToken. rewrite (gen_next_eq t input Hs Hgen). cbv zeta.
  fold string. fold t'.
  destruct (throwUnexpectedToken_raises (A:=option Token) (string0 string)
              (_currentLine t') (_currentColumn t') t' input Hs')
    as (e0 & He0 & Hmessage).
  destruct (_cursor t <? len input) eqn:Hlt.
  - apply Z.ltb_lt in Hlt.
    destruct (first_match (_spec t) string) as [[rule m]|] eqn:Hfirst.
    + destruct (is_nullish (fst (resolve (snd rule (match_0 m)) (match_0 m))))
        eqn:Hnull.
      * split.
        -- split; [intros _|intros _; eexists; exact He0].
           split; [exact Hlt|]. right.
           destruct (first_match_some _ _ _ _ Hfirst)
             as (before & after & Hspec & Hbefore & Hm).
           exists before, rule, after, m. auto.
        -- cbn [fst snd]. intros e He. rewrite He0 in He |- *.
           inversion He; subst e. auto.
      * split.
        -- split; [intros [e He]; discriminate|].
           intros [_ [Hnone | (before & rule' & after & m' & Hspec & Hb & Hm & Hn)]].
           ++ apply first_match_none in Hnone. fold string in Hnone.
              congruence.
           ++ pose proof (first_match_skips before after rule' string m' Hb Hm)
                as Hfirst'.
              rewrite <- Hspec, Hfirst in Hfirst'.
              inversion Hfirst'; subst. congruence.
        -- intros e He. discriminate.
    + split.
      * split; [intros _|intros _; eexists; exact He0].
        split; [exact Hlt|]. left. apply first_match_none. exact Hfirst.
      * cbn [fst snd]. intros e He. rewrite He0 in He |- *.
        inversion He; subst e. auto.
  - apply Z.ltb_ge in Hlt. split.
    + split; [intros [e He]; discriminate | intros [Hlt' _]; lia].
    + intros e He. discriminate.
Qed.

End Unexpected.

(** In [Score: 250], after [Score], no pattern of the README's spec matches
    the colon: the next pull raises. *)
Lemma unexpected_token_raised_witness :
  exists e,
    fst (getNextToken (pull 1 (Examples.start Examples.defaultSpec (str "Score: 250"))))
    = Throw e.
Proof.
  assert (Hs : _string (pull 1 (Examples.start Examples.defaultSpec (str "Score: 250")))
               = Some (str "Score: 250")) by (vm_compute; reflexivity).
  assert (Hgen : _gen (pull 1 (Examples.start Examples.defaultSpec (str "Score: 250")))
                 = GenSuspended) by (vm_compute; reflexivity).
  apply (proj1 (unexpected_token_raised _ _ Hs Hgen)).
  split; [reflexivity|]. left.
  repeat constructor; vm_compute; reflexivity.
Defined.

(** C4 on the code: under the spec whose one rule matches [a+] and
    returns nothing, pulling from [aab] raises; the message names [a],
    the first character of the input, at 1:2, with the caret under
    column 2, where the input has [b]; the cursor is left at 2, past the
    match, not at the position of the character named.  When no rule
    matches, as for [baa] under the same spec, the message names [b] at
    1:0, where [b] is, and the cursor has not moved. *)
Lemma null_result_reported_past_the_match :
  (exists t1,
      getNextToken (Examples.start MoreExamples.undefinedSpec (str "aab"))
      = (Throw (SyntaxError
                  ([newline; newline] ++ str "aab" ++ [newline]
                     ++ str "  ^" ++ [newline]
                     ++ str "Unexpected token: " ++ [dquote]
                     ++ str "a" ++ [dquote] ++ str " at 1:2" ++ [newline])),
         t1)
      /\ _cursor t1 = 2
      /\ _currentLine t1 = 1
      /\ _currentColumn t1 = 2
      /\ item (str "aab") 0 = Some "a"%char
      /\ item (str "aab") 2 = Some "b"%char)
  /\ (exists t1,
        getNextToken (Examples.start MoreExamples.undefinedSpec (str "baa"))
        = (Throw (SyntaxError
                    ([newline; newline] ++ str "baa" ++ [newline]
                       ++ str "^" ++ [newline]
                       ++ str "Unexpected token: " ++ [dquote]
                       ++ str "b" ++ [dquote] ++ str " at 1:0" ++ [newline])),
           t1)
        /\ _cursor t1 = 0
        /\ _currentLine t1 = 1
        /\ _currentColumn t1 = 0
        /\ item (str "baa") 0 = Some "b"%char).
Proof.
  split.
  - eexists. split; [vm_compute; reflexivity|].
    split; [vm_compute; reflexivity|].
    split; [vm_compute; reflexivity|].
    split; [vm_compute; reflexivity|].
    split; reflexivity.
  - eexists. split; [vm_compute; reflexivity|].
    split; [vm_compute; reflexivity|].
    split; [vm_compute; reflexivity|].
    split; [vm_compute; reflexivity|].
    reflexivity.
Qed.

(* ================================================================= *)
(** ** Locations *)

Section Locations.

Lemma nl_indices_from_spec (s : jsstring) :
  forall k i,
    In i (nl_indices_from k s) <->
    k <= i /\ nth_error s (Z.to_nat (i - k)) = Some newline.
Proof.
  induction s as [|c s IH]; intros k i; cbn [nl_indices_from].
  - split; [intros [] | intros [_ H]].
    destruct (Z.to_nat (i - k)); discriminate.
  - destruct (Ascii.eqb c newline) eqn:Hc.
    + apply Ascii.eqb_eq in Hc. subst c. cbn [In]. rewrite IH. split.
      * intros [<- | [Hle Hnth]].
        -- rewrite Z.sub_diag. split; [lia | reflexivity].
        -- split; [lia|].
           replace (Z.to_nat (i - k)) with (S (Z.to_nat (i - (k + 1)))) by lia.
           exact Hnth.
      * intros [Hle Hnth]. destruct (Z.eq_dec k i) as [|Hne]; [left; assumption|].
        right. split; [lia|].
        replace (Z.to_nat (i - k)) with (S (Z.to_nat (i - (k + 1)))) in Hnth by lia.
        exact Hnth.
    + rewrite IH. split.
      * intros [Hle Hnth]. split; [lia|].
        replace (Z.to_nat (i - k)) with (S (Z.to_nat (i - (k + 1)))) by lia.
        exact Hnth.
      * intros [Hle Hnth]. destruct (Z.eq_dec k i) as [<-|Hne].
        -- rewrite Z.sub_diag in Hnth. cbn in Hnth. inversion Hnth; subst c.
           rewrite Ascii.eqb_refl in Hc. discriminate.
        -- split; [lia|].
           replace (Z.to_nat (i - k)) with (S (Z.to_nat (i - (k + 1)))) in Hnth by lia.
           exact Hnth.
Qed.

(** The indices [exec] finds are those of the newlines of the text. *)
Lemma nl_indices_spec (s : jsstring) (i : Z) :
  In i (nl_indices s) <-> item s i = Some newline.
Proof.
  unfold nl_indices, item. rewrite nl_indices_from_spec, Z.sub_0_r.
  destruct (i <? 0) eqn:Hneg.
  - apply Z.ltb_lt in Hneg. split; [intros [H _]; lia | discriminate].
  - apply Z.ltb_ge in Hneg. tauto.
Qed.

Lemma last_in {A} (l : list A) (x d : A) : In (last (x :: l) d) (x :: l).
Proof.
  revert x. induction l as [|y l IH]; intros x; [left; reflexivity|].
  right. exact (IH y).
Qed.

Lemma last_map {A B} (f : A -> B) (l : list A) (x : A) (d : A) (e : B) :
  last (map f (x :: l)) e = f (last (x :: l) d).
Proof.
  revert x. induction l as [|y l IH]; intros x; [reflexivity|].
  exact (IH y).
Qed.

(** They come in increasing order, so the last one found is the
    greatest. *)
Lemma nl_indices_from_last (s : jsstring) :
  forall k d j,
    In j (nl_indices_from k s) -> j <= last (nl_indices_from k s) d.
Proof.
  induction s as [|c s IH]; intros k d j; cbn [nl_indices_from]; [intros []|].
  destruct (Ascii.eqb c newline); [|apply IH].
  destruct (nl_indices_from (k + 1) s) as [|x rest] eqn:Hrest.
  - intros [<- | []]. cbn. lia.
  - change (last (k :: x :: rest) d) with (last (x :: rest) d).
    intros [<- | Hj].
    + pose proof (last_in rest x d) as Hin. rewrite <- Hrest in Hin.
      apply nl_indices_from_spec in Hin. rewrite Hrest in Hin. lia.
    + specialize (IH (k + 1) d j). rewrite Hrest in IH. exact (IH Hj).
Qed.

(** C8: [_captureLocation], run on the matched text before the cursor
    moves. The token starts at the cursor, on the current line, at the
    cursor's distance from the line's begin; it ends at the start plus
    the matched length. Every newline of the text adds one to the line
    count, and the line-begin offset is left just past the last of
    them. The end line is the line count afterwards, the end column the
    end offset minus that line-begin offset, and the current column is
    the end column. In [a], newline, [bb], matched by one rule, the
    token starts on line 1, ends on line 2, and its end column 2 counts
    from the character after the newline. *)
Theorem captureLocation_tracks :
  (forall (matched : jsstring) (t : Tokenizer),
      let t' := snd (_captureLocation matched t) in
      fst (_captureLocation matched t) = Normal tt
      /\ _cursor t' = _cursor t
      /\ _tokenStartOffset t' = _cursor t
      /\ _tokenStartLine t' = _currentLine t
      /\ _tokenStartColumn t' = _cursor t - _currentLineBeginOffset t
      /\ _tokenEndOffset t' = _tokenStartOffset t' + len matched
      /\ (forall i, In i (nl_indices matched) <-> item matched i = Some newline)
      /\ _currentLine t' = _currentLine t + Z.of_nat (length (nl_indices matched))
      /\ (nl_indices matched = [] ->
          _currentLineBeginOffset t' = _currentLineBeginOffset t)
      /\ (forall i,
             In i (nl_indices matched) ->
             (forall j, In j (nl_indices matched) -> j <= i) ->
             _currentLineBeginOffset t' = _tokenStartOffset t' + i + 1)
      /\ _tokenEndLine t' = _currentLine t'
      /\ _tokenEndColumn t' = _tokenEndOffset t' - _currentLineBeginOffset t'
      /\ _currentColumn t' = _tokenEndColumn t')
  /\ Examples.emitted 5 (Examples.start Examples.anySpec [ "a"; newline; "b"; "b" ]%char)
     = [ {| type := String (str "ANY");
            value_ := String [ "a"; newline; "b"; "b" ]%char;
            startOffset := 0; endOffset := 4;
            startLine := 1; endLine := 2;
            startColumn := 0; endColumn := 2 |} ].
Proof.
  split; [|vm_compute; reflexivity].
  intros matched t t'.
  assert (Heq : _captureLocation matched t =
                (Normal tt, Set_.cursor (_cursor t) (advance matched t))).
  { unfold _captureLocation. run_method. rewrite for_newlines_eq.
    reflexivity. }
  unfold t'. rewrite Heq. cbn [fst snd].
  unfold Set_.cursor, advance.
  cbn [_cursor _tokenStartOffset _tokenStartLine _tokenStartColumn
       _tokenEndOffset _currentLine _currentLineBeginOffset _tokenEndLine
       _tokenEndColumn _currentColumn].
  repeat (split; [reflexivity|]).
  split; [apply nl_indices_spec|].
  split; [reflexivity|].
  split; [intros ->; reflexivity|].
  split; [|repeat split; reflexivity].
  intros i Hi Hmax.
  destruct (nl_indices matched) as [|x rest] eqn:Hindices; [destruct Hi|].
  rewrite (last_map _ rest x 0).
  assert (Hlast : last (x :: rest) 0 = i).
  { apply Z.le_antisymm.
    - apply Hmax. apply last_in.
    - rewrite <- Hindices. unfold nl_indices.
      apply nl_indices_from_last. fold (nl_indices matched).
      rewrite Hindices. exact Hi. }
  rewrite Hlast. reflexivity.
Qed.

End Locations.

(* ================================================================= *)
(** ** The diagnostic *)

Section Diagnostic.

Lemma split_from_nonempty (s acc : jsstring) : split_from acc s <> [].
Proof.
  revert acc. induction s as [|c s IH]; intros acc; cbn; [discriminate|].
  destruct (Ascii.eqb c newline); [discriminate | apply IH].
Qed.

Lemma join_split_from (s : jsstring) :
  forall acc, join_newline (split_from acc s) = rev acc ++ s.
Proof.
  induction s as [|c s IH]; intros acc; cbn [split_from].
  - cbn. rewrite app_nil_r. reflexivity.
  - destruct (Ascii.eqb c newline) eqn:Hc.
    + apply Ascii.eqb_eq in Hc. subst c.
      pose proof (split_from_nonempty s []) as Hne.
      specialize (IH []).
      destruct (split_from [] s) as [|line rest]; [contradiction|].
      cbn [join_newline]. cbn [join_newline] in IH. rewrite IH.
      reflexivity.
    + rewrite IH. cbn [rev]. rewrite <- app_assoc. reflexivity.
Qed.

(** The pieces of [split('\n')], joined by newlines, are the string. *)
Lemma join_split_newline (s : jsstring) :
  join_newline (split_newline s) = s.
Proof. unfold split_newline. rewrite join_split_from. reflexivity. Qed.

Lemma split_from_no_newline (s : jsstring) :
  forall acc,
    ~ In newline acc ->
    Forall (fun line => ~ In newline line) (split_from acc s).
Proof.
  induction s as [|c s IH]; intros acc Hacc; cbn [split_from].
  - constructor; [|constructor]. rewrite <- in_rev. exact Hacc.
  - destruct (Ascii.eqb c newline) eqn:Hc.
    + constructor; [rewrite <- in_rev; exact Hacc|].
      apply IH. intros [].
    + apply IH. intros [Heq | Hin]; [|exact (Hacc Hin)].
      subst c. rewrite Ascii.eqb_refl in Hc. discriminate.
Qed.

(** C9, amended: the diagnostic is a SyntaxError whose message is, when
    the source line at the given line number exists and is not empty,
    two newlines, that line (a whole line of the input: the pieces of
    the input between newlines, indexed by line number), a newline, as
    many spaces as the column, a caret and a newline, and then in every
    case the text [Unexpected token: "<symbol>" at <line>:<column>] and
    a newline. When the line does not exist or is empty the message is
    that last line alone. Under the README's spec, [Score: 250] raises
    the diagnostic for the colon at 1:5. *)
Theorem unexpected_token_message :
  (forall (A : Type) (t : Tokenizer) (input : jsstring)
          (symbol : option jsstring) (line column : Z),
      _string t = Some input ->
      0 <= column ->
      @throwUnexpectedToken A symbol line column t =
        (Throw (SyntaxError
                  (match item (split_newline input) (line - 1) with
                   | Some (c :: l) =>
                       [newline; newline] ++ (c :: l) ++ [newline]
                         ++ repeat space (Z.to_nat column) ++ str "^"
                         ++ [newline]
                   | Some [] | None => []
                   end
                     ++ str "Unexpected token: " ++ [dquote]
                     ++ to_string symbol ++ [dquote] ++ str " at "
                     ++ number_to_string line ++ str ":"
                     ++ number_to_string column ++ [newline])), t))
  /\ (forall input,
         join_newline (split_newline input) = input
         /\ Forall (fun line => ~ In newline line) (split_newline input))
  /\ (exists t',
         spread 10 (Examples.start Examples.defaultSpec (str "Score: 250"))
         = Some (Throw (SyntaxError
                          ([newline; newline] ++ str "Score: 250" ++ [newline]
                             ++ str "     ^" ++ [newline]
                             ++ str "Unexpected token: " ++ [dquote]
                             ++ str ":" ++ [dquote] ++ str " at 1:5"
                             ++ [newline])), t')).
Proof.
  split; [|split].
  - intros A t input symbol line column Hs Hcolumn.
    unfold throwUnexpectedToken. run_method. rewrite Hs.
    destruct (item (split_newline input) (line - 1)) as [[|c l]|];
      try reflexivity.
    unfold repeat_space.
    destruct (column <? 0) eqn:Hneg; [apply Z.ltb_lt in Hneg; lia|].
    reflexivity.
  - intros input. split; [apply join_split_newline|].
    apply split_from_no_newline. intros [].
  - eexists. vm_compute. reflexivity.
Qed.

End Diagnostic.

(** The colon of [Score: 250], at line 1, column 5. *)
Lemma unexpected_token_message_witness :
  throwUnexpectedToken (A:=unit) (Some (str ":")) 1 5
    (Examples.start Examples.defaultSpec (str "Score: 250"))
  = (Throw (SyntaxError
              ([newline; newline] ++ str "Score: 250" ++ [newline]
                 ++ str "     ^" ++ [newline]
                 ++ str "Unexpected token: " ++ [dquote]
                 ++ str ":" ++ [dquote] ++ str " at 1:5" ++ [newline])),
     Examples.start Examples.defaultSpec (str "Score: 250")).
Proof.
  assert (Hcolumn : 0 <= 5) by lia.
  exact (proj1 unexpected_token_message unit
           (Examples.start Examples.defaultSpec (str "Score: 250"))
           (str "Score: 250") (Some (str ":")) 1 5 eq_refl Hcolumn).
Defined.

(** C9 fails as stated on an empty source line: under a spec with the one
    rule for digits, the input made of a newline and [5] fails at 1:0;
    line 1 is located (it is the empty string), and the diagnostic is the
    message line alone, with no source line and no caret. *)
Lemma empty_line_has_no_caret :
  item (split_newline [newline; "5"%char]) (1 - 1) = Some []
  /\ fst (getNextToken (Examples.start Examples.digitsSpec [newline; "5"%char]))
     = Throw (SyntaxError
                (str "Unexpected token: " ++ [dquote] ++ [newline] ++ [dquote]
                   ++ str " at 1:0" ++ [newline]))
  /\ ~ In "^"%char
       (str "Unexpected token: " ++ [dquote] ++ [newline] ++ [dquote]
          ++ str " at 1:0" ++ [newline]).
Proof.
  split; [reflexivity|]. split; [vm_compute; reflexivity|].
  vm_compute. intros H.
  repeat (destruct H as [H|H]; [discriminate H|]). exact H.
Qed.

(* ================================================================= *)
(** ** After a failure *)

Section AfterFailure.

Context {engine : RegExpEngine}.

Lemma pull_completed (n : nat) (t : Tokenizer) :
  _gen t = GenCompleted -> pull n t = t.
Proof.
  intros Hgen. induction n as [|n IH]; [reflexivity|].
  cbn [pull]. unfold getNextToken. rewrite (gen_next_completed t Hgen).
  exact IH.
Qed.


End AfterFailure.



(* ================================================================= *)
(** ** Spec normalization *)

Section Normalization.

Lemma anchor_entry_anchored (entry : Rule) :
  anchor_entry (anchor_entry entry) = anchor_entry entry.
Proof.
  destruct entry as [regexp handle].
  assert (Hnew : forall pattern,
             anchor_entry (new_RegExp ("^"%char :: pattern), handle)
             = (new_RegExp ("^"%char :: pattern), handle)) by reflexivity.
  unfold anchor_entry at 2 3. cbn [fst snd].
  destruct (source regexp) as [|c rest] eqn:Hsource; [apply Hnew|].
  destruct (Ascii.eqb c "^") eqn:Hc; [|apply Hnew].
  unfold anchor_entry. cbn [fst snd]. rewrite Hsource, Hc. reflexivity.
Qed.

End Normalization.

(** C7 on the code: the rewrite puts [^] in front of the source and
    makes a pattern without flags.  [/a/i] becomes [/^a/]: the flag is
    lost, and [A], which the rule's pattern matched, is no longer
    matched.  [/a|b/] becomes [/^a|b/], whose second alternative is not
    anchored: on [cb] it matches [b] at index 1, and the tokens of [cb]
    are two tokens [b], at offsets 0 to 1 and 1 to 2, the [c] never
    reported.  A pattern already starting with [^] keeps its flags. *)
Lemma normalization_loses_flags_and_anchor :
  (map fst (_processSpec Examples.ignoreCaseSpec) = [Rx.literal "^a"]
   /\ flags (Rx.literal_i "a") = str "i"
   /\ flags (Rx.literal "^a") = []
   /\ string_match (str "A") (Rx.literal_i "a")
      = Some {| match_index := 0; match_0 := str "A" |}
   /\ string_match (str "A") (Rx.literal "^a") = None
   /\ fst (getNextToken (Examples.start Examples.ignoreCaseSpec (str "A")))
      = Throw (SyntaxError
                 ([newline; newline] ++ str "A" ++ [newline]
                    ++ str "^" ++ [newline]
                    ++ str "Unexpected token: " ++ [dquote]
                    ++ str "A" ++ [dquote] ++ str " at 1:0" ++ [newline])))
  /\ (map fst (_processSpec MoreExamples.alternationSpec) = [Rx.literal "^a|b"]
      /\ string_match (str "cb") (Rx.literal "^a|b")
         = Some {| match_index := 1; match_0 := str "b" |}
      /\ Examples.emitted 10
           (Examples.start MoreExamples.alternationSpec (str "cb"))
         = [ Examples.token "AB" "b" 0 1 1 1 0 1;
             Examples.token "AB" "b" 1 2 1 1 1 2 ])
  /\ map fst (_processSpec (SpecRules [ (Rx.literal_i "^a", Examples.label "A") ]))
     = [Rx.literal_i "^a"].
Proof.
  split; [|split].
  - split; [vm_compute; reflexivity|].
    split; [reflexivity|]. split; [reflexivity|].
    split; [vm_compute; reflexivity|].
    split; vm_compute; reflexivity.
  - split; [vm_compute; reflexivity|].
    split; vm_compute; reflexivity.
  - vm_compute; reflexivity.
Qed.

(* ================================================================= *)
(** ** [getAllTokens] and the location fields *)

Section AllTokens.

Context {engine : RegExpEngine}.

(** After [init] the field [_tokens] holds the empty array, never
    [null], so [getAllTokens] returns it without pulling anything. *)
Lemma getAllTokens_after_init (fuel : nat) (string : option jsstring)
    (t0 t : Tokenizer) :
  init string t0 = (Normal tt, t) ->
  getAllTokens fuel t = Some (Normal [], t).
Proof.
  intros Hinit. destruct (init_normal _ _ _ Hinit) as (_ & _ & _ & _ & Htokens).
  unfold getAllTokens. rewrite Htokens. reflexivity.
Qed.

End AllTokens.

(** C5 on the code: after [init('Score 250')] under the README's spec,
    [getAllTokens()] returns the empty list and leaves the cursor at 0,
    while the sequence itself has the three tokens. *)
Lemma getAllTokens_returns_no_token :
  getAllTokens 10 (Examples.start Examples.defaultSpec (str "Score 250"))
  = Some (Normal [], Examples.start Examples.defaultSpec (str "Score 250"))
  /\ _cursor (Examples.start Examples.defaultSpec (str "Score 250")) = 0
  /\ Examples.emitted 10 (Examples.start Examples.defaultSpec (str "Score 250"))
     = [ Examples.token "WORD" "Score" 0 5 1 1 0 5;
         Examples.token "WS" " " 5 6 1 1 5 6;
         Examples.token "NUMBER" "250" 6 9 1 1 6 9 ].
Proof.
  split; [vm_compute; reflexivity|].
  split; vm_compute; reflexivity.
Qed.

(** C6 on the code: [init] takes the string alone, and the first token of
    [Score 250] carries its six location fields although no option asked
    for them. *)
Lemma tokens_always_carry_locations :
  fst (getNextToken (Examples.start Examples.defaultSpec (str "Score 250")))
  = Normal (Some {| type := String (str "WORD");
                    value_ := String (str "Score");
                    startOffset := 0; endOffset := 5;
                    startLine := 1; endLine := 1;
                    startColumn := 0; endColumn := 5 |}).
Proof. vm_compute. reflexivity. Qed.

(* ================================================================= *)
(** ** From [init] on: invariants, termination, restart *)

Section Reachable.

Context {engine : RegExpEngine}.

(** Where one [next()] can leave the instance. *)
Lemma gen_next_state (t : Tokenizer) (input : jsstring) :
  _string t = Some input ->
  snd (gen_next t) = t
  \/ snd (gen_next t) = Set_.gen GenCompleted t
  \/ exists rule m,
       first_match (_spec t) (slice input (_cursor t)) = Some (rule, m)
       /\ _cursor t < len input
       /\ (snd (gen_next t) = advance (match_0 m) t
           \/ snd (gen_next t) = Set_.gen GenCompleted (advance (match_0 m) t)).
Proof.
  intros Hs. destruct (_gen t) eqn:Hgen.
  - rewrite (gen_next_eq t input Hs Hgen). cbv zeta. unfold failure_state.
    destruct (_cursor t <? len input) eqn:Hlt; [|right; left; reflexivity].
    apply Z.ltb_lt in Hlt.
    destruct (first_match (_spec t) (slice input (_cursor t)))
      as [[rule m]|]; [|right; left; reflexivity].
    right. right. exists rule, m. split; [reflexivity|]. split; [exact Hlt|].
    destruct (is_nullish _); [right | left]; reflexivity.
  - left. rewrite (gen_next_completed t Hgen). reflexivity.
Qed.

Lemma nl_index_inside (matched : jsstring) (i : Z) :
  In i (nl_indices matched) -> 0 <= i < len matched.
Proof.
  intros Hin. apply nl_indices_spec in Hin. unfold item in Hin.
  destruct (i <? 0) eqn:Hneg; [discriminate|]. apply Z.ltb_ge in Hneg.
  assert (Hlt : (Z.to_nat i < length matched)%nat)
    by (apply nth_error_Some; congruence).
  unfold len. lia.
Qed.

Lemma scanning_advance (spec : list Rule) (input matched : jsstring)
    (t : Tokenizer) :
  scanning spec input t ->
  _cursor t + len matched <= len input ->
  scanning spec input (advance matched t).
Proof.
  intros (Hspec & Htokens & Hs & Hbegin & Hcursor & Hcolumn & Hline) Hfit.
  pose proof (len_nonneg matched) as Hpos.
  unfold scanning, advance.
  cbn [_spec _tokens _string _cursor _currentLineBeginOffset _currentColumn
       _currentLine].
  repeat (split; [assumption|]).
  split; [|split; [exact Hfit | split; [reflexivity | lia]]].
  destruct (nl_indices matched) as [|x rest] eqn:Hindices; [cbn; lia|].
  rewrite (last_map _ rest x 0).
  pose proof (last_in rest x 0) as Hin. rewrite <- Hindices in Hin.
  apply nl_index_inside in Hin. rewrite Hindices in Hin. lia.
Qed.

Lemma scanning_completed (spec : list Rule) (input : jsstring) (t : Tokenizer) :
  scanning spec input t -> scanning spec input (Set_.gen GenCompleted t).
Proof. intros H. exact H. Qed.

Hypothesis sound : engine_sound.

Lemma scanning_gen_next (spec : list Rule) (input : jsstring) (t : Tokenizer) :
  scanning spec input t -> scanning spec input (snd (gen_next t)).
Proof.
  intros Hscan.
  assert (Hs : _string t = Some input) by apply Hscan.
  assert (Hfit : forall rule m,
             first_match (_spec t) (slice input (_cursor t)) = Some (rule, m) ->
             _cursor t + len (match_0 m) <= len input).
  { intros rule m Hfirst.
    destruct (first_match_some _ _ _ _ Hfirst) as (_ & _ & _ & _ & Hm).
    apply (match_within sound) in Hm.
    destruct Hscan as (_ & _ & _ & Hbegin & Hcursor & _).
    rewrite len_slice in Hm by lia. lia. }
  destruct (gen_next_state t input Hs)
    as [-> | [-> | (rule & m & Hfirst & _ & [-> | ->])]].
  - exact Hscan.
  - exact Hscan.
  - apply scanning_advance; [exact Hscan | exact (Hfit rule m Hfirst)].
  - apply scanning_completed, scanning_advance;
      [exact Hscan | exact (Hfit rule m Hfirst)].
Qed.

Lemma scanning_pull (spec : list Rule) (input : jsstring) (n : nat) :
  forall t, scanning spec input t -> scanning spec input (pull n t).
Proof.
  induction n as [|n IH]; intros t Hscan; [exact Hscan|].
  cbn [pull]. apply IH. unfold getNextToken. apply scanning_gen_next.
  exact Hscan.
Qed.

Lemma scanning_init (input : jsstring) (t0 t : Tokenizer) :
  init (Some input) t0 = (Normal tt, t) -> scanning (_spec t0) input t.
Proof.
  intros Hinit. rewrite (init_state _ _ _ Hinit). unfold scanning. cbn.
  pose proof (len_nonneg input). repeat split; lia.
Qed.

(** X1: whatever has been pulled since [init(input)], what token production
    raises is the SyntaxError with the unexpected-token message (the
    column is never negative, so padding the caret cannot fail). *)
Theorem raise_is_syntax_error
    (t0 t t1 : Tokenizer) (input : jsstring) (n : nat) (e : exn) :
  init (Some input) t0 = (Normal tt, t) ->
  getNextToken (pull n t) = (Throw e, t1) ->
  0 <= _currentColumn t1
  /\ exists lineData symbol,
       e = SyntaxError (unexpected_message lineData symbol
                          (_currentLine t1) (_currentColumn t1)).
Proof.
  intros Hinit Hraise.
  pose proof (scanning_pull _ input n t (scanning_init _ _ _ Hinit)) as Hscan.
  pose proof (scanning_gen_next _ input _ Hscan) as Hscan1.
  unfold getNextToken in Hraise.
  assert (Ht1 : snd (gen_next (pull n t)) = t1) by (rewrite Hraise; reflexivity).
  rewrite Ht1 in Hscan1.
  assert (Hcolumn : 0 <= _currentColumn t1).
  { destruct Hscan1 as (_ & _ & _ & Hbegin & _ & Hcol & _). lia. }
  split; [exact Hcolumn|].
  assert (Hs : _string (pull n t) = Some input) by apply Hscan.
  destruct (_gen (pull n t)) eqn:Hgen;
    [|rewrite (gen_next_completed _ Hgen) in Hraise; discriminate].
  rewrite (gen_next_eq _ input Hs Hgen) in Hraise.
  destruct (_cursor (pull n t) <? len input); [|discriminate].
  cbv zeta in Hraise.
  set (u := failure_state (pull n t) (slice input (_cursor (pull n t)))) in *.
  assert (Hu : _string u = Some input).
  { unfold u, failure_state.
    destruct (first_match _ _) as [[rule m]|]; exact Hs. }
  destruct (throwUnexpectedToken_raises (A:=option Token)
              (string0 (slice input (_cursor (pull n t))))
              (_currentLine u) (_currentColumn u) u input Hu)
    as (e0 & He0 & Hmessage).
  rewrite He0 in Hraise.
  assert (He : e = e0 /\ t1 = Set_.gen GenCompleted u).
  { destruct (first_match _ _) as [[rule m]|];
      [destruct (is_nullish _); [|discriminate]|];
      inversion Hraise; split; reflexivity. }
  destruct He as [-> ->]. cbn [Set_.gen _currentColumn _currentLine] in *.
  destruct (Hmessage Hcolumn) as [lineData ->].
  exists lineData, (string0 (slice input (_cursor (pull n t)))). reflexivity.
Qed.

(** X2: after [init(input)] and any number of pulls, [reset()] puts the
    instance back exactly where [init(input)] had put it, so the same
    tokens come again. *)
Theorem reset_restores_start
    (t0 t : Tokenizer) (input : jsstring) (n : nat) :
  init (Some input) t0 = (Normal tt, t) ->
  reset (pull n t) = (Normal tt, t)
  /\ forall fuel, spread fuel (snd (reset (pull n t))) = spread fuel t.
Proof.
  intros Hinit.
  pose proof (scanning_pull _ input n t (scanning_init _ _ _ Hinit))
    as (Hspec & Htokens & Hs & _).
  assert (Hreset : reset (pull n t) = (Normal tt, t)).
  { unfold reset, bind, this. rewrite Hs. rewrite init_eq by congruence.
    rewrite Hspec. rewrite (init_state _ _ _ Hinit). reflexivity. }
  split; [exact Hreset|]. intros fuel. rewrite Hreset. reflexivity.
Qed.

Lemma spread_ends (spec : list Rule) (input : jsstring) (fuel : nat) :
  no_empty_match spec ->
  forall t,
    scanning spec input t ->
    (Z.to_nat (len input - _cursor t) < fuel)%nat ->
    exists outcome, spread fuel t = Some outcome.
Proof.
  intros Hnonempty.
  induction fuel as [|fuel IH]; intros t Hscan Hfuel; [lia|].
  cbn [spread].
  destruct (gen_next t) as [[[token|]|e] t1] eqn:Hnext;
    try (eexists; reflexivity).
  assert (Hs : _string t = Some input) by apply Hscan.
  assert (Hgen : _gen t = GenSuspended).
  { destruct (_gen t) eqn:Hgen; [reflexivity|].
    rewrite (gen_next_completed t Hgen) in Hnext. discriminate. }
  assert (Hc : 0 <= _cursor t <= len input).
  { destruct Hscan as (_ & _ & _ & Hbegin & Hcursor & _). lia. }
  destruct (gen_next_token sound t t1 input token Hs Hgen Hc Hnext)
    as (rule & m & Hfirst & Ht1 & _ & Hle).
  destruct (first_match_some _ _ _ _ Hfirst)
    as (before & after & Hrules & _ & Hm).
  assert (Hlen : 1 <= len (match_0 m)).
  { assert (Hne : match_0 m <> []).
    { apply (Hnonempty rule (slice input (_cursor t)) m); [|exact Hm].
      destruct Hscan as (Hspec & _). rewrite <- Hspec, Hrules.
      apply in_or_app. right. left. reflexivity. }
    unfold len. destruct (match_0 m); [contradiction | cbn; lia]. }
  assert (Hscan1 : scanning spec input t1).
  { pose proof (scanning_gen_next _ input t Hscan) as H.
    rewrite Hnext in H. exact H. }
  assert (Hcur1 : _cursor t1 = _cursor t + len (match_0 m))
    by (rewrite Ht1; reflexivity).
  assert (Hless : (Z.to_nat (len input - _cursor t1) < fuel)%nat) by lia.
  destruct (IH t1 Hscan1 Hless) as [[[rest|e] t2] Hrest];
    rewrite Hrest; eexists; reflexivity.
Qed.

(** X3: when no pattern of the spec matches the empty string, draining the
    sequence of [init(input)] ends within one pull per character and one
    more: with a list of tokens or with an error. *)
Theorem spread_terminates (t0 t : Tokenizer) (input : jsstring) :
  no_empty_match (_spec t0) ->
  init (Some input) t0 = (Normal tt, t) ->
  exists outcome, spread (S (length input)) t = Some outcome.
Proof.
  intros Hnonempty Hinit.
  apply (spread_ends (_spec t0) input); [exact Hnonempty | |].
  - exact (scanning_init _ _ _ Hinit).
  - destruct (init_normal _ _ _ Hinit) as (_ & -> & _). unfold len. lia.
Qed.

End Reachable.

Lemma defaultSpec_no_empty_match :
  no_empty_match (_processSpec Examples.defaultSpec).
Proof.
  intros rule s m [<- | [<- | [<- | []]]];
    eapply RxFacts.bol_plus_class_nonempty; vm_compute; reflexivity.
Qed.

(** [Score: 250] under the README's spec: what the second pull raises. *)
Lemma raise_is_syntax_error_witness :
  exists lineData symbol,
    SyntaxError
      ([newline; newline] ++ str "Score: 250" ++ [newline]
         ++ str "     ^" ++ [newline]
         ++ str "Unexpected token: " ++ [dquote]
         ++ str ":" ++ [dquote] ++ str " at 1:5" ++ [newline])
    = SyntaxError
        (unexpected_message lineData symbol
           (_currentLine (pull 2 (Examples.start Examples.defaultSpec (str "Score: 250"))))
           (_currentColumn (pull 2 (Examples.start Examples.defaultSpec (str "Score: 250"))))).
Proof.
  assert (Hinit : init (Some (str "Score: 250")) (snd (fromSpec Examples.defaultSpec))
                  = (Normal tt, Examples.start Examples.defaultSpec (str "Score: 250")))
    by (vm_compute; reflexivity).
  assert (Hraise :
            getNextToken (pull 1 (Examples.start Examples.defaultSpec (str "Score: 250")))
            = (Throw (SyntaxError
                        ([newline; newline] ++ str "Score: 250" ++ [newline]
                           ++ str "     ^" ++ [newline]
                           ++ str "Unexpected token: " ++ [dquote]
                           ++ str ":" ++ [dquote] ++ str " at 1:5" ++ [newline])),
               pull 2 (Examples.start Examples.defaultSpec (str "Score: 250"))))
    by (vm_compute; reflexivity).
  exact (proj2 (raise_is_syntax_error RxFacts.sound _ _ _ _ 1 _ Hinit Hraise)).
Defined.

(** [Score 250] under the README's spec: two pulls, then [reset()]. *)
Lemma reset_restores_start_witness :
  reset (pull 2 (Examples.start Examples.defaultSpec (str "Score 250")))
  = (Normal tt, Examples.start Examples.defaultSpec (str "Score 250")).
Proof.
  assert (Hinit : init (Some (str "Score 250")) (snd (fromSpec Examples.defaultSpec))
                  = (Normal tt, Examples.start Examples.defaultSpec (str "Score 250")))
    by (vm_compute; reflexivity).
  exact (proj1 (reset_restores_start RxFacts.sound _ _ _ 2 Hinit)).
Defined.

(** [Score 250] under the README's spec: ten pulls are enough. *)
Lemma spread_terminates_witness :
  exists outcome,
    spread (S (length (str "Score 250")))
      (Examples.start Examples.defaultSpec (str "Score 250"))
    = Some outcome.
Proof.
  assert (Hinit : init (Some (str "Score 250")) (snd (fromSpec Examples.defaultSpec))
                  = (Normal tt, Examples.start Examples.defaultSpec (str "Score 250")))
    by (vm_compute; reflexivity).
  exact (spread_terminates RxFacts.sound
           (snd (fromSpec Examples.defaultSpec))
           (Examples.start Examples.defaultSpec (str "Score 250"))
           (str "Score 250") defaultSpec_no_empty_match Hinit).
Defined.

(* ================================================================= *)
(** ** Any sequence of calls *)

Section AnyCalls.

Context {engine : RegExpEngine}.

(** [next()] assigns neither the spec nor the token array, whatever the
    instance holds. *)
Lemma gen_next_keeps (t : Tokenizer) :
  _spec (snd (gen_next t)) = _spec t
  /\ _tokens (snd (gen_next t)) = _tokens t.
Proof.
  destruct (_string t) as [input|] eqn:Hs.
  - destruct (gen_next_state t input Hs)
      as [-> | [-> | (rule & m & _ & _ & [-> | ->])]];
      split; reflexivity.
  - unfold gen_next. destruct (_gen t); [|split; reflexivity].
    unfold _genTokens, hasMoreTokens. run_method. rewrite Hs.
    split; reflexivity.
Qed.

Lemma perform_keeps (spec : list Rule) (call : Call) (t : Tokenizer) :
  _spec t = spec /\ _tokens t = Some [] ->
  _spec (perform call t) = spec /\ _tokens (perform call t) = Some [].
Proof.
  intros [Hspec Htokens].
  assert (Hinit : forall string,
             _spec (snd (init string t)) = spec
             /\ _tokens (snd (init string t)) = Some []).
  { intros string. rewrite init_eq by congruence. cbn. auto. }
  destruct call as [string|string| |]; cbn [perform].
  - apply Hinit.
  - apply Hinit.
  - unfold reset, bind, this. apply Hinit.
  - unfold getNextToken. destruct (gen_next_keeps t) as [-> ->]. auto.
Qed.

Lemma perform_all_keeps (spec : list Rule) (calls : list Call) :
  forall t,
    _spec t = spec /\ _tokens t = Some [] ->
    _spec (perform_all calls t) = spec
    /\ _tokens (perform_all calls t) = Some [].
Proof.
  induction calls as [|call rest IH]; intros t Hkeep; [exact Hkeep|].
  cbn [perform_all]. apply IH, perform_keeps, Hkeep.
Qed.

Lemma new_Tokenizer_keeps (spec : RawSpec) (string : option jsstring) :
  fst (new_Tokenizer spec string) = Normal tt
  /\ _spec (snd (new_Tokenizer spec string)) = _processSpec spec
  /\ _tokens (snd (new_Tokenizer spec string)) = Some [].
Proof. repeat split. Qed.

(** X4: on an instance built by the constructor, after any sequence of
    [init], [initString], [reset] and [getNextToken] calls (those that
    raised included), [getAllTokens()] returns the empty array and
    assigns nothing: the array is never [null], so the sequence is never
    drained into it. *)
Theorem getAllTokens_never_scans
    (spec : RawSpec) (string : option jsstring) (calls : list Call)
    (fuel : nat) :
  let t := perform_all calls (snd (new_Tokenizer spec string)) in
  getAllTokens fuel t = Some (Normal [], t).
Proof.
  intros t.
  destruct (perform_all_keeps (_processSpec spec) calls
              (snd (new_Tokenizer spec string))) as [_ Htokens];
    [split; reflexivity|].
  unfold getAllTokens. fold t in Htokens. rewrite Htokens. reflexivity.
Qed.

(** X5: [init(string)] starts afresh whatever came before: on an instance
    built by the constructor from [spec], after any sequence of calls, it
    leaves the instance exactly as [new Tokenizer(spec, string)] makes it
    (in particular the constructor with a string is [fromSpec] followed
    by [init]); [initString] does the same. *)
Theorem init_starts_afresh
    (spec : RawSpec) (first string : option jsstring) (calls : list Call) :
  let t := perform_all calls (snd (new_Tokenizer spec first)) in
  init string t = new_Tokenizer spec string
  /\ initString string t = new_Tokenizer spec string
  /\ init string (snd (fromSpec spec)) = new_Tokenizer spec string.
Proof.
  intros t.
  assert (Hfresh : forall u,
             _spec u = _processSpec spec /\ _tokens u = Some [] ->
             init string u = new_Tokenizer spec string).
  { intros u [Hspec Htokens]. unfold new_Tokenizer.
    rewrite !init_eq by (cbn; congruence). rewrite Hspec. reflexivity. }
  assert (Ht : _spec t = _processSpec spec /\ _tokens t = Some []).
  { apply perform_all_keeps. split; reflexivity. }
  split; [|split].
  - apply Hfresh, Ht.
  - unfold initString. apply Hfresh, Ht.
  - apply Hfresh. split; reflexivity.
Qed.

(** X6: [getSpec()] returns the normalized rules, the same after any
    sequence of calls; a tokenizer constructed from what [getSpec()]
    returns, or from an object whose [rules] are the given rules, is the
    same tokenizer as the one constructed from the given rules. *)
Theorem getSpec_round_trip
    (rules : list Rule) (first string : option jsstring)
    (calls : list Call) :
  let t := perform_all calls (snd (new_Tokenizer (SpecRules rules) first)) in
  getSpec t = (Normal (_processSpec (SpecRules rules)), t)
  /\ new_Tokenizer (SpecRules (_spec t)) string
     = new_Tokenizer (SpecRules rules) string
  /\ new_Tokenizer (SpecObject rules) string
     = new_Tokenizer (SpecRules rules) string.
Proof.
  intros t.
  assert (Ht : _spec t = _processSpec (SpecRules rules)).
  { apply (perform_all_keeps _ calls). split; reflexivity. }
  split; [|split].
  - unfold getSpec, this. rewrite Ht. reflexivity.
  - rewrite Ht. unfold new_Tokenizer.
    replace (_processSpec (SpecRules (_processSpec (SpecRules rules))))
      with (_processSpec (SpecRules rules)); [reflexivity|].
    unfold _processSpec. rewrite map_map. apply map_ext.
    intros entry. symmetry. apply anchor_entry_anchored.
  - reflexivity.
Qed.

(** X7: until a string is bound, the instance cannot be scanned: on what
    [fromSpec(spec)] returns, or after [init(null)], [hasMoreTokens()]
    and [isEOF()] raise a TypeError, and so does the first
    [getNextToken()], which finishes the sequence: the calls after it
    return the end marker. The cursor reads 0, at line 1, column 0. *)
Theorem unbound_string_raises (t0 t : Tokenizer) :
  init None t0 = (Normal tt, t) ->
  hasMoreTokens t = (Throw TypeError, t)
  /\ isEOF t = (Throw TypeError, t)
  /\ getNextToken t = (Throw TypeError, Set_.gen GenCompleted t)
  /\ (forall n,
        getNextToken (pull (S n) t) = (Normal None, Set_.gen GenCompleted t))
  /\ getCursor t = (Normal 0, t)
  /\ getCurrentLine t = (Normal 1, t)
  /\ getCurrentColumn t = (Normal 0, t).
Proof.
  intros Hinit. rewrite (init_state _ _ _ Hinit).
  repeat (split; [reflexivity|]).
  split; [|repeat split].
  intros n. cbn [pull].
  set (u := snd (getNextToken _)).
  assert (Hu : _gen u = GenCompleted) by reflexivity.
  rewrite (pull_completed n u Hu). unfold getNextToken.
  rewrite (gen_next_completed u Hu). reflexivity.
Qed.

End AnyCalls.

(** What [fromSpec] returns for the README's spec. *)
Lemma unbound_string_raises_witness :
  hasMoreTokens (snd (fromSpec Examples.defaultSpec))
  = (Throw TypeError, snd (fromSpec Examples.defaultSpec))
  /\ getNextToken (snd (fromSpec Examples.defaultSpec))
     = (Throw TypeError,
        Set_.gen GenCompleted (snd (fromSpec Examples.defaultSpec))).
Proof.
  assert (Hinit : init None (snd (fromSpec Examples.defaultSpec))
                  = (Normal tt, snd (fromSpec Examples.defaultSpec)))
    by (vm_compute; reflexivity).
  pose proof (unbound_string_raises (engine := Rx.engine) _ _ Hinit)
    as (Hmore & _ & Hnext & _).
  split; [exact Hmore | exact Hnext].
Defined.

(* ================================================================= *)
(** ** Accessors and tokens *)

Section Accessors.

Context {engine : RegExpEngine}.
Hypothesis sound : engine_sound.

(** X8: from [init(input)] on, after any number of pulls, a token that
    [getNextToken()] returns starts where the accessors stood before the
    call and ends where they stand after it: its start offset, line and
    column are [getCursor()], [getCurrentLine()] and [getCurrentColumn()]
    as they were, its end offset, line and column are what they are
    afterwards, and the cursor has not gone back. *)
Theorem token_spans_the_accessors
    (t0 t u' : Tokenizer) (input : jsstring) (n : nat) (token : Token) :
  init (Some input) t0 = (Normal tt, t) ->
  getNextToken (pull n t) = (Normal (Some token), u') ->
  let u := pull n t in
  getCursor u = (Normal (startOffset token), u)
  /\ getCurrentLine u = (Normal (startLine token), u)
  /\ getCurrentColumn u = (Normal (startColumn token), u)
  /\ getCursor u' = (Normal (endOffset token), u')
  /\ getCurrentLine u' = (Normal (endLine token), u')
  /\ getCurrentColumn u' = (Normal (endColumn token), u')
  /\ startOffset token <= endOffset token
  /\ startLine token <= endLine token.
Proof.
  intros Hinit Hnext u.
  pose proof (scanning_pull sound _ input n t (scanning_init _ _ _ Hinit))
    as Hscan.
  fold u in Hscan, Hnext.
  destruct Hscan as (_ & _ & Hs & Hbegin & Hcursor & Hcolumn & _).
  assert (Hgen : _gen u = GenSuspended).
  { destruct (_gen u) eqn:Hgen; [reflexivity|].
    unfold getNextToken in Hnext.
    rewrite (gen_next_completed u Hgen) in Hnext. discriminate. }
  assert (Hc : 0 <= _cursor u <= len input) by lia.
  destruct (gen_next_token sound u u' input token Hs Hgen Hc Hnext)
    as (rule & m & _ & Hu' & Htoken & _).
  pose proof (len_nonneg (match_0 m)) as Hpos.
  rewrite Htoken, Hu'.
  unfold getCursor, getCurrentLine, getCurrentColumn, this.
  cbn [token_of advance startOffset startLine startColumn endOffset endLine
       endColumn _tokenStartOffset _tokenStartLine _tokenStartColumn
       _tokenEndOffset _tokenEndLine _tokenEndColumn _cursor _currentLine
       _currentColumn].
  rewrite Hcolumn.
  repeat (split; [reflexivity|]). split; lia.
Qed.

Lemma spread_final (fuel : nat) :
  forall (t t' : Tokenizer) (input : jsstring) (tokens : list Token),
    _string t = Some input ->
    _gen t = GenSuspended ->
    0 <= _cursor t <= len input ->
    spread fuel t = Some (Normal tokens, t') ->
    _string t' = Some input /\ _cursor t' = len input
    /\ _gen t' = GenCompleted.
Proof.
  induction fuel as [|fuel IH]; intros t t' input tokens Hs Hgen Hc;
    [discriminate|].
  cbn [spread].
  destruct (gen_next t) as [[[token|]|e] t1] eqn:Hnext.
  - destruct (gen_next_token sound t t1 input token Hs Hgen Hc Hnext)
      as (rule & m & _ & Ht1 & _ & Hle).
    destruct (spread fuel t1) as [[[rest|e] t2]|] eqn:Hrest;
      try discriminate.
    intros H. inversion H; subst tokens t2.
    pose proof (len_nonneg (match_0 m)) as Hpos.
    apply (IH t1 t' input rest); try assumption.
    + rewrite Ht1. exact Hs.
    + rewrite Ht1. exact Hgen.
    + rewrite Ht1 in Hle |- *. cbn [advance _cursor] in *. lia.
  - intros H. inversion H; subst tokens t1.
    destruct (gen_next_done t t' input Hs Hgen Hnext) as [Hge ->].
    repeat split; [exact Hs | cbn; lia].
  - discriminate.
Qed.

(** X9: from [init(input)] on the cursor stays inside the input, so
    [isEOF()] is the negation of [hasMoreTokens()] after any number of
    pulls; and once the sequence has been drained to its end without
    error, [isEOF()] is true, [hasMoreTokens()] false and [getCursor()]
    the length of the input. *)
Theorem eof_is_no_more_tokens
    (t0 t : Tokenizer) (input : jsstring) :
  init (Some input) t0 = (Normal tt, t) ->
  (forall n,
      let u := pull n t in
      0 <= _cursor u <= len input
      /\ exists more,
           hasMoreTokens u = (Normal more, u)
           /\ isEOF u = (Normal (negb more), u))
  /\ (forall fuel tokens t',
         spread fuel t = Some (Normal tokens, t') ->
         isEOF t' = (Normal true, t')
         /\ hasMoreTokens t' = (Normal false, t')
         /\ getCursor t' = (Normal (len input), t')
         /\ getNextToken t' = (Normal None, t')).
Proof.
  intros Hinit. split.
  - intros n u.
    pose proof (scanning_pull sound _ input n t (scanning_init _ _ _ Hinit))
      as (_ & _ & Hs & Hbegin & Hcursor & _).
    fold u in Hs, Hbegin, Hcursor. split; [lia|].
    exists (_cursor u <? len input).
    unfold hasMoreTokens, isEOF. run_method. rewrite Hs.
    split; [reflexivity|]. do 2 f_equal.
    destruct (_cursor u <? len input) eqn:Hlt.
    + apply Z.ltb_lt in Hlt. apply Z.eqb_neq. lia.
    + apply Z.ltb_ge in Hlt. apply Z.eqb_eq. lia.
  - intros fuel tokens t' Hspread.
    destruct (init_normal _ _ _ Hinit) as (Hs & Hc & Hgen & _).
    pose proof (len_nonneg input) as Hpos.
    destruct (spread_final fuel t t' input tokens Hs Hgen) as (Hs' & Hc' & Hgen');
      [lia | exact Hspread |].
    unfold isEOF, hasMoreTokens, getCursor, getNextToken. run_method.
    rewrite Hs', Hc', Z.eqb_refl, Z.ltb_irrefl.
    rewrite (gen_next_completed t' Hgen').
    repeat split.
Qed.

End Accessors.

(** The second token of [Score 250] under the README's spec. *)
Lemma token_spans_the_accessors_witness :
  getCursor (pull 1 (Examples.start Examples.defaultSpec (str "Score 250")))
  = (Normal (startOffset (Examples.token "WS" " " 5 6 1 1 5 6)),
     pull 1 (Examples.start Examples.defaultSpec (str "Score 250")))
  /\ getCursor (pull 2 (Examples.start Examples.defaultSpec (str "Score 250")))
     = (Normal (endOffset (Examples.token "WS" " " 5 6 1 1 5 6)),
        pull 2 (Examples.start Examples.defaultSpec (str "Score 250"))).
Proof.
  assert (Hinit : init (Some (str "Score 250")) (snd (fromSpec Examples.defaultSpec))
                  = (Normal tt, Examples.start Examples.defaultSpec (str "Score 250")))
    by (vm_compute; reflexivity).
  assert (Hnext :
            getNextToken (pull 1 (Examples.start Examples.defaultSpec (str "Score 250")))
            = (Normal (Some (Examples.token "WS" " " 5 6 1 1 5 6)),
               pull 2 (Examples.start Examples.defaultSpec (str "Score 250"))))
    by (vm_compute; reflexivity).
  pose proof (token_spans_the_accessors RxFacts.sound _ _ _ _ 1 _ Hinit Hnext)
    as (Hstart & _ & _ & Hend & _).
  split; [exact Hstart | exact Hend].
Defined.

(** [Score 250] under the README's spec, drained. *)
Lemma eof_is_no_more_tokens_witness :
  isEOF (Examples.drained 10 (Examples.start Examples.defaultSpec (str "Score 250")))
  = (Normal true,
     Examples.drained 10 (Examples.start Examples.defaultSpec (str "Score 250")))
  /\ hasMoreTokens
       (Examples.drained 10 (Examples.start Examples.defaultSpec (str "Score 250")))
     = (Normal false,
        Examples.drained 10 (Examples.start Examples.defaultSpec (str "Score 250"))).
Proof.
  assert (Hinit : init (Some (str "Score 250")) (snd (fromSpec Examples.defaultSpec))
                  = (Normal tt, Examples.start Examples.defaultSpec (str "Score 250")))
    by (vm_compute; reflexivity).
  assert (Hspread :
            spread 10 (Examples.start Examples.defaultSpec (str "Score 250"))
            = Some (Normal [ Examples.token "WORD" "Score" 0 5 1 1 0 5;
                             Examples.token "WS" " " 5 6 1 1 5 6;
                             Examples.token "NUMBER" "250" 6 9 1 1 6 9 ],
                    Examples.drained 10
                      (Examples.start Examples.defaultSpec (str "Score 250"))))
    by (vm_compute; reflexivity).
  pose proof (proj2 (eof_is_no_more_tokens RxFacts.sound _ _ _ Hinit)
                _ _ _ Hspread) as (Heof & Hmore & _).
  split; [exact Heof | exact Hmore].
Defined.

(* ================================================================= *)
(** ** Where the cursor is in the input *)

Section Positions.

Lemma nl_indices_from_shift (s : jsstring) :
  forall k, nl_indices_from k s = map (fun i => i + k) (nl_indices_from 0 s).
Proof.
  induction s as [|c s IH]; intros k; cbn [nl_indices_from]; [reflexivity|].
  rewrite (IH (k + 1)), (IH (0 + 1)).
  destruct (Ascii.eqb c newline); cbn [map]; rewrite map_map;
    [f_equal|]; apply map_ext; intros i; lia.
Qed.

Lemma nl_indices_from_app (p m : jsstring) :
  forall k,
    nl_indices_from k (p ++ m)
    = nl_indices_from k p ++ nl_indices_from (k + len p) m.
Proof.
  induction p as [|c p IH]; intros k; cbn [app nl_indices_from].
  - unfold len. cbn. rewrite Z.add_0_r. reflexivity.
  - rewrite IH.
    replace (k + 1 + len p) with (k + len (c :: p))
      by (unfold len; cbn [length]; lia).
    destruct (Ascii.eqb c newline); reflexivity.
Qed.

Lemma nl_indices_count (s : jsstring) :
  forall k, length (nl_indices_from k s) = count_occ ascii_dec s newline.
Proof.
  induction s as [|c s IH]; intros k; cbn [nl_indices_from count_occ];
    [reflexivity|].
  destruct (Ascii.eqb c newline) eqn:Hc.
  - apply Ascii.eqb_eq in Hc. subst c.
    destruct (ascii_dec newline newline); [|contradiction].
    cbn [length]. rewrite IH. reflexivity.
  - destruct (ascii_dec c newline) as [->|_]; [|apply IH].
    rewrite Ascii.eqb_refl in Hc. discriminate.
Qed.

Lemma last_app_cons {A} (l l' : list A) (x d : A) :
  last (l ++ x :: l') d = last (x :: l') d.
Proof.
  induction l as [|y l IH]; [reflexivity|].
  cbn [app]. rewrite <- IH.
  destruct (l ++ x :: l') eqn:E; [destruct l; discriminate | reflexivity].
Qed.

Lemma last_cons_default {A} (l : list A) (x d : A) :
  last (x :: l) d = last l x.
Proof.
  revert x d. induction l as [|y l IH]; intros x d; [reflexivity|].
  change (last (y :: l) d = last (y :: l) x). rewrite !IH. reflexivity.
Qed.

Lemma firstn_add {A} (l : list A) :
  forall a b, firstn (a + b) l = firstn a l ++ firstn b (skipn a l).
Proof.
  induction l as [|x l IH]; intros a b.
  - rewrite !firstn_nil, skipn_nil, firstn_nil. reflexivity.
  - destruct a as [|a]; [reflexivity|].
    cbn [Nat.add firstn skipn app]. rewrite IH. reflexivity.
Qed.

(** The consumed part grows by the text matched at the cursor. *)
Lemma consumed_advance (input matched rest : jsstring) (t : Tokenizer) :
  0 <= _cursor t <= len input ->
  slice input (_cursor t) = matched ++ rest ->
  consumed input (advance matched t) = consumed input t ++ matched
  /\ len (consumed input t) = _cursor t.
Proof.
  intros Hc Hslice. unfold consumed. cbn [advance _cursor].
  pose proof (len_nonneg matched) as Hpos.
  rewrite slice_skipn in Hslice by lia.
  rewrite Z2Nat.inj_add by lia. rewrite firstn_add, Hslice.
  unfold len at 1. rewrite Nat2Z.id, firstn_app, Nat.sub_diag, firstn_all.
  cbn [firstn]. rewrite app_nil_r. split; [reflexivity|].
  unfold len in *. rewrite length_firstn. lia.
Qed.

Context {engine : RegExpEngine}.
Hypothesis sound : engine_sound.

Lemma located_advance (input matched rest : jsstring) (t : Tokenizer) :
  0 <= _cursor t <= len input ->
  slice input (_cursor t) = matched ++ rest ->
  located input t ->
  located input (advance matched t).
Proof.
  intros Hc Hslice [Hline Hbegin].
  destruct (consumed_advance input matched rest t Hc Hslice) as [Hgrow Hlen].
  unfold located. rewrite Hgrow.
  cbn [advance _currentLine _currentLineBeginOffset].
  unfold nl_indices in *.
  rewrite nl_indices_from_app, Z.add_0_l, Hlen.
  rewrite (nl_indices_from_shift matched (_cursor t)).
  rewrite length_app, length_map, Hline, Hbegin. split; [lia|].
  rewrite map_app, !map_map.
  destruct (nl_indices_from 0 matched) as [|x l]; cbn [map].
  - rewrite app_nil_r. reflexivity.
  - rewrite last_app_cons.
    change (last ((fun index => _cursor t + index + 1) x
                    :: map (fun index => _cursor t + index + 1) l)
                 (last (map (fun i => i + 1)
                          (nl_indices_from 0 (consumed input t))) 0)
            = last ((fun i => i + _cursor t + 1) x
                      :: map (fun i => i + _cursor t + 1) l) 0).
    rewrite <- !(map_cons _ x l).
    rewrite (map_ext (fun index => _cursor t + index + 1)
               (fun i => i + _cursor t + 1)) by (intros; lia).
    apply last_default_irrelevant.
Qed.

Lemma located_gen_next (spec : list Rule) (input : jsstring) (t : Tokenizer) :
  Forall (fun rule => anchored (fst rule)) spec ->
  scanning spec input t ->
  located input t ->
  located input (snd (gen_next t)).
Proof.
  intros Hanchored Hscan Hlocated.
  destruct Hscan as (Hspec & _ & Hs & Hbegin & Hcursor & _).
  assert (Hc : 0 <= _cursor t <= len input) by lia.
  destruct (gen_next_state t input Hs)
    as [-> | [-> | (rule & m & Hfirst & _ & Hafter)]];
    [exact Hlocated | exact Hlocated |].
  destruct (first_match_some _ _ _ _ Hfirst) as (before & after & Hrules & _ & Hm).
  assert (Hrule : anchored (fst rule)).
  { rewrite Forall_forall in Hanchored. apply Hanchored.
    rewrite <- Hspec, Hrules. apply in_or_app. right. left. reflexivity. }
  pose proof (slice_split sound input (_cursor t) (fst rule) m Hc Hrule Hm)
    as Hslice.
  pose proof (located_advance input (match_0 m) _ t Hc Hslice Hlocated) as Hadv.
  destruct Hafter as [-> | ->]; exact Hadv.
Qed.

Lemma located_pull (spec : list Rule) (input : jsstring) (n : nat) :
  Forall (fun rule => anchored (fst rule)) spec ->
  forall t,
    scanning spec input t ->
    located input t ->
    located input (pull n t).
Proof.
  intros Hanchored.
  induction n as [|n IH]; intros t Hscan Hlocated; [exact Hlocated|].
  cbn [pull]. unfold getNextToken. apply IH.
  - apply (scanning_gen_next sound). exact Hscan.
  - apply (located_gen_next spec); assumption.
Qed.

Lemma located_init (input : jsstring) (t0 t : Tokenizer) :
  init (Some input) t0 = (Normal tt, t) -> located input t.
Proof.
  intros Hinit. rewrite (init_state _ _ _ Hinit).
  unfold located, consumed. cbn. split; reflexivity.
Qed.

(** X10: when every pattern of the spec matches only at the start of the
    remaining input, the line and column follow the input: from
    [init(input)] on, after any number of pulls, what lies before the
    cursor is a prefix of the input, [getCurrentLine()] is 1 plus the
    number of newlines in it, and [getCurrentColumn()] is the number of
    characters between the last of these newlines and the cursor (the
    cursor itself when there is none). *)
Theorem position_follows_input
    (t0 t : Tokenizer) (input : jsstring) (n : nat) :
  Forall (fun rule => anchored (fst rule)) (_spec t0) ->
  init (Some input) t0 = (Normal tt, t) ->
  let u := pull n t in
  let before := consumed input u in
  before ++ slice input (_cursor u) = input
  /\ len before = _cursor u
  /\ getCurrentLine u
     = (Normal (1 + Z.of_nat (count_occ ascii_dec before newline)), u)
  /\ ((forall i, item before i <> Some newline) ->
      getCurrentColumn u = (Normal (_cursor u), u))
  /\ (forall i,
         item before i = Some newline ->
         (forall j, item before j = Some newline -> j <= i) ->
         getCurrentColumn u = (Normal (_cursor u - (i + 1)), u)).
Proof.
  intros Hanchored Hinit u before.
  pose proof (scanning_init _ _ _ Hinit) as Hscan0.
  pose proof (scanning_pull sound _ input n t Hscan0) as Hscan.
  pose proof (located_pull _ input n Hanchored t Hscan0
                (located_init _ _ _ Hinit)) as [Hline Hbegin].
  fold u in Hscan, Hline, Hbegin. fold before in Hline, Hbegin.
  destruct Hscan as (_ & _ & _ & Hlb & Hcursor & Hcolumn & _).
  unfold getCurrentLine, getCurrentColumn, this.
  split; [|split; [|split; [|split]]].
  - unfold before, consumed. rewrite slice_skipn by lia. apply firstn_skipn.
  - unfold before, consumed, len in *. rewrite length_firstn. lia.
  - rewrite Hline. unfold nl_indices. rewrite nl_indices_count. reflexivity.
  - intros Hnone. rewrite Hcolumn, Hbegin.
    destruct (nl_indices before) as [|x l] eqn:Hindices.
    + cbn. rewrite Z.sub_0_r. reflexivity.
    + exfalso. apply (Hnone x). apply nl_indices_spec. rewrite Hindices.
      left. reflexivity.
  - intros i Hi Hmax. rewrite Hcolumn, Hbegin.
    apply nl_indices_spec in Hi.
    destruct (nl_indices before) as [|x l] eqn:Hindices; [destruct Hi|].
    rewrite (last_map _ l x 0).
    assert (Hlast : last (x :: l) 0 = i).
    { apply Z.le_antisymm.
      - apply Hmax. apply nl_indices_spec. rewrite Hindices. apply last_in.
      - rewrite <- Hindices. unfold nl_indices.
        apply nl_indices_from_last. fold (nl_indices before).
        rewrite Hindices. exact Hi. }
    rewrite Hlast. reflexivity.
Qed.

End Positions.

(** [a], newline, [bb] matched whole by one rule: line 2, column 2. *)
Lemma position_follows_input_witness :
  getCurrentLine
    (pull 1 (Examples.start Examples.anySpec [ "a"; newline; "b"; "b" ]%char))
  = (Normal 2,
     pull 1 (Examples.start Examples.anySpec [ "a"; newline; "b"; "b" ]%char))
  /\ getCurrentColumn
       (pull 1 (Examples.start Examples.anySpec [ "a"; newline; "b"; "b" ]%char))
     = (Normal 2,
        pull 1 (Examples.start Examples.anySpec [ "a"; newline; "b"; "b" ]%char)).
Proof.
  assert (Hanchored :
            Forall (fun rule => anchored (fst rule))
                   (_spec (snd (fromSpec Examples.anySpec)))).
  { repeat constructor. eapply RxFacts.bol_anchored. vm_compute. reflexivity. }
  assert (Hinit :
            init (Some [ "a"; newline; "b"; "b" ]%char)
              (snd (fromSpec Examples.anySpec))
            = (Normal tt,
               Examples.start Examples.anySpec [ "a"; newline; "b"; "b" ]%char))
    by (vm_compute; reflexivity).
  pose proof (position_follows_input RxFacts.sound _ _ _ 1 Hanchored Hinit)
    as (_ & _ & Hline & _ & Hcolumn).
  split.
  - vm_compute in Hline. vm_compute. exact Hline.
  - assert (Hat : item (consumed [ "a"; newline; "b"; "b" ]%char
                          (pull 1 (Examples.start Examples.anySpec
                                     [ "a"; newline; "b"; "b" ]%char))) 1
                  = Some newline) by (vm_compute; reflexivity).
    assert (Hlast : forall j,
               item (consumed [ "a"; newline; "b"; "b" ]%char
                       (pull 1 (Examples.start Examples.anySpec
                                  [ "a"; newline; "b"; "b" ]%char))) j
               = Some newline -> j <= 1).
    { intros j Hj. apply nl_indices_spec in Hj. vm_compute in Hj.
      destruct Hj as [<- | []]. lia. }
    specialize (Hcolumn 1 Hat Hlast).
    vm_compute in Hcolumn. vm_compute. exact Hcolumn.
Defined.

(* ================================================================= *)
(** ** What the caret points at *)

Section Caret.

Lemma split_from_head (s : jsstring) :
  forall acc, exists tail rest, split_from acc s = (rev acc ++ tail) :: rest.
Proof.
  induction s as [|c s IH]; intros acc; cbn [split_from].
  - exists [], []. rewrite app_nil_r. reflexivity.
  - destruct (Ascii.eqb c newline).
    + exists [], (split_from [] s). rewrite app_nil_r. reflexivity.
    + destruct (IH (c :: acc)) as (tail & rest & ->).
      exists (c :: tail), rest. cbn [rev]. rewrite <- app_assoc. reflexivity.
Qed.

(** The character at offset [c] of [s] is in the piece of [split] whose
    index is the number of newlines before it, at the distance from the
    last of these newlines ([acc] holds what the piece being read already
    has, [k] is the offset of [s] itself). *)
Lemma split_from_locate (s : jsstring) :
  forall (acc : jsstring) (c : nat) (ch : ascii) (k : Z),
    nth_error s c = Some ch ->
    exists line,
      nth_error (split_from acc s)
        (length (nl_indices_from k (firstn c s))) = Some line
      /\ nth_error (line ++ [newline])
           (Z.to_nat (k + Z.of_nat c
                      - last (map (fun i => i + 1)
                                (nl_indices_from k (firstn c s)))
                             (k - len acc)))
         = Some ch.
Proof.
  induction s as [|x s IH]; intros acc c ch k Hnth;
    [destruct c; discriminate|].
  destruct c as [|c].
  - cbn in Hnth. inversion Hnth; subst x. cbn [firstn nl_indices_from length map last].
    replace (Z.to_nat (k + Z.of_nat 0 - (k - len acc))) with (length acc)
      by (unfold len; lia).
    cbn [split_from]. destruct (Ascii.eqb ch newline) eqn:Hch.
    + apply Ascii.eqb_eq in Hch. subst ch. exists (rev acc).
      split; [reflexivity|].
      rewrite nth_error_app2 by (rewrite length_rev; lia).
      rewrite length_rev, Nat.sub_diag. reflexivity.
    + destruct (split_from_head s (ch :: acc)) as (tail & rest & ->).
      exists (rev (ch :: acc) ++ tail). split; [reflexivity|].
      cbn [rev]. rewrite <- !app_assoc.
      rewrite nth_error_app2 by (rewrite length_rev; lia).
      rewrite length_rev, Nat.sub_diag. reflexivity.
  - cbn in Hnth. cbn [firstn nl_indices_from split_from].
    destruct (Ascii.eqb x newline).
    + destruct (IH [] c ch (k + 1) Hnth) as (line & Hline & Hat).
      exists line. cbn [length nth_error map]. split; [exact Hline|].
      rewrite last_cons_default.
      replace (k + Z.of_nat (S c)) with (k + 1 + Z.of_nat c) by lia.
      replace (k + 1 - len []) with (k + 1) in Hat by (unfold len; cbn; lia).
      exact Hat.
    + destruct (IH (x :: acc) c ch (k + 1) Hnth) as (line & Hline & Hat).
      exists line. split; [exact Hline|].
      replace (k + Z.of_nat (S c)) with (k + 1 + Z.of_nat c) by lia.
      replace (k + 1 - len (x :: acc)) with (k - len acc) in Hat
        by (unfold len; cbn [length]; lia).
      exact Hat.
Qed.

Context {engine : RegExpEngine}.
Hypothesis sound : engine_sound.

(** X11: when every pattern of the spec matches only at the start of the
    remaining input and, after any number of pulls from [init(input)], no
    pattern matches at the cursor, the diagnostic points at the character
    under the cursor: the source line it shows is the line of the input
    that holds the cursor, the column is the distance of the cursor from
    the start of that line, so the caret stands under the character the
    message names (or just past the end of the line, when that character
    is the newline that ends it); an empty line is not shown. *)
Theorem caret_points_at_character
    (t0 t u' : Tokenizer) (input : jsstring) (n : nat) (e : exn) :
  Forall (fun rule => anchored (fst rule)) (_spec t0) ->
  init (Some input) t0 = (Normal tt, t) ->
  let u := pull n t in
  Forall (fun r => string_match (slice input (_cursor u)) (fst r) = None)
         (_spec u) ->
  getNextToken u = (Throw e, u') ->
  exists line ch,
    item (split_newline input) (_currentLine u - 1) = Some line
    /\ item input (_cursor u) = Some ch
    /\ nth_error (line ++ [newline]) (Z.to_nat (_currentColumn u)) = Some ch
    /\ 0 <= _currentColumn u <= len line
    /\ e = SyntaxError
             (match line with
              | [] => []
              | _ :: _ =>
                  [newline; newline] ++ line ++ [newline]
                    ++ repeat space (Z.to_nat (_currentColumn u))
                    ++ str "^" ++ [newline]
              end
                ++ str "Unexpected token: " ++ [dquote] ++ [ch] ++ [dquote]
                ++ str " at " ++ number_to_string (_currentLine u)
                ++ str ":" ++ number_to_string (_currentColumn u)
                ++ [newline]).
Proof.
  intros Hanchored Hinit u Hnone Hraise.
  pose proof (scanning_init _ _ _ Hinit) as Hscan0.
  pose proof (scanning_pull sound _ input n t Hscan0) as Hscan.
  pose proof (located_pull sound _ input n Hanchored t Hscan0
                (located_init _ _ _ Hinit)) as [Hline Hbegin].
  fold u in Hscan, Hline, Hbegin.
  destruct Hscan as (_ & _ & Hs & Hlb & Hcursor & Hcolumn & _).
  assert (Hgen : _gen u = GenSuspended).
  { destruct (_gen u) eqn:Hgen; [reflexivity|].
    unfold getNextToken in Hraise.
    rewrite (gen_next_completed u Hgen) in Hraise. discriminate. }
  unfold getNextToken in Hraise.
  rewrite (gen_next_eq u input Hs Hgen) in Hraise.
  destruct (_cursor u <? len input) eqn:Hlt; [|discriminate].
  apply Z.ltb_lt in Hlt. cbv zeta in Hraise. unfold failure_state in Hraise.
  apply first_match_none in Hnone. rewrite Hnone in Hraise.
  destruct (nth_error input (Z.to_nat (_cursor u))) as [ch|] eqn:Hch;
    [|apply nth_error_None in Hch; unfold len in Hlt; lia].
  destruct (split_from_locate input [] _ ch 0 Hch) as (line & Hat & Hunder).
  fold (consumed input u) in Hat, Hunder.
  fold (nl_indices (consumed input u)) in Hat, Hunder.
  change (0 - len []) with 0 in Hunder.
  rewrite <- Hbegin in Hunder.
  replace (0 + Z.of_nat (Z.to_nat (_cursor u)) - _currentLineBeginOffset u)
    with (_currentColumn u) in Hunder by lia.
  assert (Hitem : item (split_newline input) (_currentLine u - 1) = Some line).
  { unfold item, split_newline. rewrite Hline.
    destruct (_ <? 0) eqn:Hneg; [apply Z.ltb_lt in Hneg; lia|].
    replace (Z.to_nat (1 + Z.of_nat (length (nl_indices (consumed input u))) - 1))
      with (length (nl_indices (consumed input u))) by lia.
    exact Hat. }
  assert (Hbound : 0 <= _currentColumn u <= len line).
  { split; [lia|].
    assert (Hin : (Z.to_nat (_currentColumn u) < length (line ++ [newline]))%nat)
      by (apply nth_error_Some; congruence).
    rewrite length_app in Hin. cbn [length] in Hin. unfold len. lia. }
  assert (Hsymbol : string0 (slice input (_cursor u)) = Some [ch]).
  { rewrite slice_skipn by lia.
    destruct (nth_error_split _ _ Hch) as (l1 & l2 & Hinput & Hl1).
    rewrite Hinput at 1. rewrite <- Hl1.
    rewrite skipn_app, skipn_all, Nat.sub_diag. reflexivity. }
  exists line, ch. split; [exact Hitem|].
  split; [unfold item; destruct (_ <? 0) eqn:Hneg;
          [apply Z.ltb_lt in Hneg; lia | exact Hch]|].
  split; [exact Hunder|]. split; [exact Hbound|].
  revert Hraise. rewrite Hsymbol.
  unfold throwUnexpectedToken. run_method. rewrite Hs, Hitem.
  destruct line as [|c l].
  - intros H. inversion H. reflexivity.
  - unfold repeat_space.
    destruct (_currentColumn u <? 0) eqn:Hneg;
      [apply Z.ltb_lt in Hneg; lia|].
    intros H. inversion H. reflexivity.
Qed.

End Caret.

Lemma defaultSpec_anchored :
  Forall (fun rule => anchored (fst rule)) (_processSpec Examples.defaultSpec).
Proof.
  repeat constructor; eapply RxFacts.bol_anchored; vm_compute; reflexivity.
Qed.

(** [Score: 250] under the README's spec: the caret stands under the
    colon, the sixth character of line 1. *)
Lemma caret_points_at_character_witness :
  exists line ch,
    item (split_newline (str "Score: 250"))
      (_currentLine (pull 1 (Examples.start Examples.defaultSpec (str "Score: 250")))
       - 1) = Some line
    /\ item (str "Score: 250")
         (_cursor (pull 1 (Examples.start Examples.defaultSpec (str "Score: 250"))))
       = Some ch
    /\ nth_error (line ++ [newline])
         (Z.to_nat
            (_currentColumn
               (pull 1 (Examples.start Examples.defaultSpec (str "Score: 250")))))
       = Some ch.
Proof.
  assert (Hinit : init (Some (str "Score: 250")) (snd (fromSpec Examples.defaultSpec))
                  = (Normal tt, Examples.start Examples.defaultSpec (str "Score: 250")))
    by (vm_compute; reflexivity).
  assert (Hraise :
            getNextToken (pull 1 (Examples.start Examples.defaultSpec (str "Score: 250")))
            = (Throw (SyntaxError
                        ([newline; newline] ++ str "Score: 250" ++ [newline]
                           ++ str "     ^" ++ [newline]
                           ++ str "Unexpected token: " ++ [dquote]
                           ++ str ":" ++ [dquote] ++ str " at 1:5" ++ [newline])),
               pull 2 (Examples.start Examples.defaultSpec (str "Score: 250"))))
    by (vm_compute; reflexivity).
  assert (Hnone :
            Forall (fun r =>
                      string_match
                        (slice (str "Score: 250")
                           (_cursor (pull 1 (Examples.start Examples.defaultSpec
                                               (str "Score: 250")))))
                        (fst r) = None)
                   (_spec (pull 1 (Examples.start Examples.defaultSpec
                                     (str "Score: 250")))))
    by (repeat constructor; vm_compute; reflexivity).
  destruct (caret_points_at_character RxFacts.sound
              (snd (fromSpec Examples.defaultSpec)) _ _ _ 1 _
              defaultSpec_anchored Hinit Hnone Hraise)
    as (line & ch & Hline & Hch & Hunder & _).
  exists line, ch. split; [exact Hline | split; [exact Hch | exact Hunder]].
Defined.

(* ================================================================= *)
(** ** A match of the empty string *)

Section EmptyMatch.

Context {engine : RegExpEngine}.

Lemma pull_succ (n : nat) :
  forall t, pull (S n) t = snd (getNextToken (pull n t)).
Proof.
  induction n as [|n IH]; intros t; [reflexivity|].
  change (pull (S (S n)) t) with (pull (S n) (snd (getNextToken t))).
  rewrite IH. reflexivity.
Qed.

Lemma empty_match_step (t : Tokenizer) (input : jsstring) (rule : Rule)
    (m : MatchResult) :
  _string t = Some input ->
  _gen t = GenSuspended ->
  _cursor t < len input ->
  first_match (_spec t) (slice input (_cursor t)) = Some (rule, m) ->
  match_0 m = [] ->
  is_nullish (fst (resolve (snd rule []) [])) = false ->
  gen_next t
  = (Normal (Some (token_of (advance [] t) (resolve (snd rule []) []))),
     advance [] t).
Proof.
  intros Hs Hgen Hlt Hfirst Hempty Hnull.
  rewrite (gen_next_eq t input Hs Hgen).
  apply Z.ltb_lt in Hlt. rewrite Hlt. cbv zeta. unfold failure_state.
  rewrite Hfirst, Hempty, Hnull. reflexivity.
Qed.

(** X12: when, with input left, the first rule whose pattern matches does
    so on the empty string and its handler gives a type, [getNextToken()]
    returns a token of no length and the cursor stays where it is, so the
    same happens at every later pull: [hasMoreTokens()] stays true and
    draining the sequence never ends, whatever the number of pulls. *)
Theorem empty_match_never_ends
    (t : Tokenizer) (input : jsstring) (rule : Rule) (m : MatchResult) :
  _string t = Some input ->
  _gen t = GenSuspended ->
  _cursor t < len input ->
  first_match (_spec t) (slice input (_cursor t)) = Some (rule, m) ->
  match_0 m = [] ->
  is_nullish (fst (resolve (snd rule []) [])) = false ->
  (forall n,
      exists token,
        getNextToken (pull n t) = (Normal (Some token), pull (S n) t)
        /\ startOffset token = _cursor t
        /\ endOffset token = _cursor t
        /\ _cursor (pull (S n) t) = _cursor t
        /\ hasMoreTokens (pull (S n) t) = (Normal true, pull (S n) t))
  /\ (forall fuel, spread fuel t = None).
Proof.
  intros Hs Hgen Hlt Hfirst Hempty Hnull.
  assert (Hstay : forall u,
             _string u = Some input /\ _gen u = GenSuspended
             /\ _cursor u = _cursor t /\ _spec u = _spec t ->
             gen_next u
             = (Normal (Some (token_of (advance [] u) (resolve (snd rule []) []))),
                advance [] u)
             /\ (_string (advance [] u) = Some input
                 /\ _gen (advance [] u) = GenSuspended
                 /\ _cursor (advance [] u) = _cursor t
                 /\ _spec (advance [] u) = _spec t)).
  { intros u (Hsu & Hgu & Hcu & Hspu). split.
    - apply (empty_match_step u input rule m); try assumption.
      + rewrite Hcu. exact Hlt.
      + rewrite Hcu, Hspu. exact Hfirst.
    - cbn [advance _string _gen _cursor _spec]. unfold len. cbn [length].
      repeat split; try assumption. lia. }
  assert (Hpull : forall n,
             _string (pull n t) = Some input /\ _gen (pull n t) = GenSuspended
             /\ _cursor (pull n t) = _cursor t /\ _spec (pull n t) = _spec t).
  { intros n. assert (Hgo : forall u,
               _string u = Some input /\ _gen u = GenSuspended
               /\ _cursor u = _cursor t /\ _spec u = _spec t ->
               _string (pull n u) = Some input /\ _gen (pull n u) = GenSuspended
               /\ _cursor (pull n u) = _cursor t /\ _spec (pull n u) = _spec t).
    { induction n as [|n IH]; intros u Hu; [exact Hu|].
      cbn [pull]. apply IH. unfold getNextToken.
      destruct (Hstay u Hu) as [-> Hafter]. exact Hafter. }
    apply Hgo. repeat split; first [assumption | reflexivity]. }
  split.
  - intros n. destruct (Hstay (pull n t) (Hpull n)) as [Hnext Hafter].
    assert (Hsucc : pull (S n) t = advance [] (pull n t)).
    { rewrite pull_succ. unfold getNextToken. rewrite Hnext. reflexivity. }
    eexists. unfold getNextToken. rewrite Hsucc. split; [exact Hnext|].
    destruct Hafter as (Hsa & _ & Hca & _).
    destruct (Hpull n) as (_ & _ & Hcn & _).
    cbn [token_of startOffset endOffset advance _tokenStartOffset
         _tokenEndOffset]. unfold len. cbn [length].
    split; [exact Hcn|]. split; [lia|]. split; [exact Hca|].
    unfold hasMoreTokens. run_method. rewrite (proj1 (Hpull n)).
    destruct (Hpull n) as (_ & _ & -> & _).
    replace (_cursor t + len []) with (_cursor t) by (unfold len; cbn; lia).
    apply Z.ltb_lt in Hlt. rewrite Hlt. reflexivity.
  - intros fuel.
    assert (Hgo : forall u,
               _string u = Some input /\ _gen u = GenSuspended
               /\ _cursor u = _cursor t /\ _spec u = _spec t ->
               spread fuel u = None).
    { induction fuel as [|fuel IH]; intros u Hu; [reflexivity|].
      cbn [spread]. destruct (Hstay u Hu) as [-> Hafter].
      rewrite (IH _ Hafter). reflexivity. }
    apply Hgo. repeat split; first [assumption | reflexivity].
Qed.

End EmptyMatch.

(** The pattern [a*] on the input [b]: a token of no length at every
    pull. *)
Lemma empty_match_never_ends_witness :
  (exists token,
      getNextToken (pull 3 (Examples.start MoreExamples.starSpec (str "b")))
      = (Normal (Some token),
         pull 4 (Examples.start MoreExamples.starSpec (str "b")))
      /\ startOffset token = _cursor (Examples.start MoreExamples.starSpec (str "b"))
      /\ endOffset token = _cursor (Examples.start MoreExamples.starSpec (str "b"))
      /\ _cursor (pull 4 (Examples.start MoreExamples.starSpec (str "b")))
         = _cursor (Examples.start MoreExamples.starSpec (str "b"))
      /\ hasMoreTokens (pull 4 (Examples.start MoreExamples.starSpec (str "b")))
         = (Normal true, pull 4 (Examples.start MoreExamples.starSpec (str "b"))))
  /\ spread 1000 (Examples.start MoreExamples.starSpec (str "b")) = None.
Proof.
  assert (Hs : _string (Examples.start MoreExamples.starSpec (str "b"))
               = Some (str "b")) by (vm_compute; reflexivity).
  assert (Hgen : _gen (Examples.start MoreExamples.starSpec (str "b"))
                 = GenSuspended) by (vm_compute; reflexivity).
  assert (Hlt : _cursor (Examples.start MoreExamples.starSpec (str "b"))
                < len (str "b")) by (vm_compute; reflexivity).
  assert (Hfirst :
            first_match (_spec (Examples.start MoreExamples.starSpec (str "b")))
              (slice (str "b")
                 (_cursor (Examples.start MoreExamples.starSpec (str "b"))))
            = Some ((Rx.literal "^a*", Examples.label "A"),
                    {| match_index := 0; match_0 := [] |}))
    by (vm_compute; reflexivity).
  pose proof (empty_match_never_ends (engine := Rx.engine) _ _ _ _
                Hs Hgen Hlt Hfirst eq_refl eq_refl) as [Hpulls Hspread].
  split; [exact (Hpulls 3%nat) | exact (Hspread 1000%nat)].
Defined.

(* ================================================================= *)
(** ** The text of a token *)

Section TokenText.

Context {engine : RegExpEngine}.
Hypothesis sound : engine_sound.

(** X13: when every pattern of the spec matches only at the start of the
    remaining input, a token pulled after [init(input)] is made from the
    text of its own span: some rule of the spec matches the input at the
    token's start offset on exactly the characters from there to its end
    offset, the handler of that rule is given this text, and the token's
    type and value are what it returns. When the handler returns a type
    alone, the value is the text of the span. *)
Theorem token_made_from_span
    (t0 t u' : Tokenizer) (input : jsstring) (n : nat) (token : Token) :
  Forall (fun rule => anchored (fst rule)) (_spec t0) ->
  init (Some input) t0 = (Normal tt, t) ->
  getNextToken (pull n t) = (Normal (Some token), u') ->
  let text := firstn (Z.to_nat (endOffset token - startOffset token))
                     (slice input (startOffset token)) in
  exists regexp handle m,
    In (regexp, handle) (_spec t0)
    /\ string_match (slice input (startOffset token)) regexp = Some m
    /\ match_0 m = text
    /\ type token = fst (resolve (handle text) text)
    /\ value_ token = or_empty_string (snd (resolve (handle text) text))
    /\ (plain_handler handle -> value_ token = String text).
Proof.
  intros Hanchored Hinit Hnext text.
  pose proof (scanning_pull sound _ input n t (scanning_init _ _ _ Hinit))
    as (Hspec & _ & Hs & Hbegin & Hcursor & _).
  set (u := pull n t) in *.
  assert (Hgen : _gen u = GenSuspended).
  { destruct (_gen u) eqn:Hgen; [reflexivity|].
    unfold getNextToken in Hnext.
    rewrite (gen_next_completed u Hgen) in Hnext. discriminate. }
  assert (Hc : 0 <= _cursor u <= len input) by lia.
  destruct (gen_next_token sound u u' input token Hs Hgen Hc Hnext)
    as (rule & m & Hfirst & Hu' & Htoken & _).
  destruct (first_match_some _ _ _ _ Hfirst)
    as (before & after & Hrules & _ & Hm).
  assert (Hin : In rule (_spec t0)).
  { rewrite <- Hspec, Hrules. apply in_or_app. right. left. reflexivity. }
  assert (Hrule : anchored (fst rule)).
  { rewrite Forall_forall in Hanchored. exact (Hanchored rule Hin). }
  pose proof (slice_split sound input (_cursor u) (fst rule) m Hc Hrule Hm)
    as Hslice.
  assert (Hstart : startOffset token = _cursor u)
    by (rewrite Htoken, Hu'; reflexivity).
  assert (Hend : endOffset token = _cursor u + len (match_0 m))
    by (rewrite Htoken, Hu'; reflexivity).
  assert (Htext : match_0 m = text).
  { unfold text. rewrite Hstart, Hend, Hslice.
    replace (Z.to_nat (_cursor u + len (match_0 m) - _cursor u))
      with (length (match_0 m)) by (unfold len; lia).
    rewrite firstn_app, Nat.sub_diag, firstn_all. cbn [firstn].
    rewrite app_nil_r. reflexivity. }
  destruct rule as [regexp handle]. exists regexp, handle, m.
  cbn [fst snd] in *.
  split; [exact Hin|]. split; [rewrite Hstart; exact Hm|].
  split; [exact Htext|]. rewrite <- Htext.
  assert (Htype : type token = fst (resolve (handle (match_0 m)) (match_0 m)))
    by (rewrite Htoken; reflexivity).
  assert (Hvalue : value_ token
                   = or_empty_string (snd (resolve (handle (match_0 m)) (match_0 m))))
    by (rewrite Htoken; reflexivity).
  split; [exact Htype|]. split; [exact Hvalue|].
  intros Hplain. rewrite Hvalue. unfold resolve.
  specialize (Hplain (match_0 m)).
  destruct (handle (match_0 m)) as [| |label|items]; try reflexivity.
  exfalso. exact (Hplain items eq_refl).
Qed.

End TokenText.

(** The second token of [Score 250] under the README's spec is made from
    the space at offset 5. *)
Lemma token_made_from_span_witness :
  exists regexp handle m,
    In (regexp, handle) (_spec (snd (fromSpec Examples.defaultSpec)))
    /\ string_match
         (slice (str "Score 250")
            (startOffset (Examples.token "WS" " " 5 6 1 1 5 6))) regexp
       = Some m
    /\ match_0 m
       = firstn (Z.to_nat (endOffset (Examples.token "WS" " " 5 6 1 1 5 6)
                           - startOffset (Examples.token "WS" " " 5 6 1 1 5 6)))
           (slice (str "Score 250")
              (startOffset (Examples.token "WS" " " 5 6 1 1 5 6))).
Proof.
  assert (Hinit : init (Some (str "Score 250")) (snd (fromSpec Examples.defaultSpec))
                  = (Normal tt, Examples.start Examples.defaultSpec (str "Score 250")))
    by (vm_compute; reflexivity).
  assert (Hnext :
            getNextToken (pull 1 (Examples.start Examples.defaultSpec (str "Score 250")))
            = (Normal (Some (Examples.token "WS" " " 5 6 1 1 5 6)),
               pull 2 (Examples.start Examples.defaultSpec (str "Score 250"))))
    by (vm_compute; reflexivity).
  destruct (token_made_from_span RxFacts.sound
              (snd (fromSpec Examples.defaultSpec)) _ _ _ 1 _
              defaultSpec_anchored Hinit Hnext)
    as (regexp & handle & m & Hin & Hm & Htext & _).
  exists regexp, handle, m.
  split; [exact Hin | split; [exact Hm | exact Htext]].
Defined.
